(** * Vietnamese sign-language converter: SVO to SOV reordering and glossing

    A shallow embedding of the two converter implementations of the
    repository,

    - [Legacy]: [sign_language_converter.py] (nine buckets, gloss
      substitution in the output sequence, dictionary reload), and
    - [Core]: [src/core/sign_language_converter.py] (ten buckets with time
      expressions, per-word detail report, seed dictionary),

    followed by the properties of the classification pass, the reordering
    policy, the vocabulary lookup and the dictionary loader.

    Python values are modelled as follows.  A [str] is a [string] holding
    its UTF-8 bytes; a [dict] is a [gmap] with [string] keys; a [set] of
    strings is a [gset]; a list is a [list]; a tagged word [(word, pos)]
    is a pair.  Indexing a [dict] with a key it does not hold raises
    [KeyError], which the error monad [result] makes explicit. *)

From Stdlib Require Import Ascii.
From stdpp Require Import gmap strings list fin_maps.

#[local] Set Warnings "-clear-no-such-hyp".

Open Scope string_scope.
Open Scope list_scope.

(** ** Built-in string methods

    [str.lower], [str.upper], [str.strip] and [str.isupper] follow the
    Unicode character database, which is no part of the repository: the
    development is parametric in them. *)

Class StrOps := {
  lower : string → string;
  upper : string → string;
  strip : string → string;
  isupper : string → bool;
}.

(** An instance that agrees with the built-ins on ASCII text; it is used
    to run the model on concrete inputs. *)

Definition is_ascii_upper (c : ascii) : bool :=
  let n := nat_of_ascii c in (65 <=? n)%nat && (n <=? 90)%nat.

Definition is_ascii_lower (c : ascii) : bool :=
  let n := nat_of_ascii c in (97 <=? n)%nat && (n <=? 122)%nat.

Definition is_ascii_space (c : ascii) : bool :=
  let n := nat_of_ascii c in
  ((9 <=? n)%nat && (n <=? 13)%nat) || ((28 <=? n)%nat && (n <=? 32)%nat).

Definition ascii_to_lower (c : ascii) : ascii :=
  if is_ascii_upper c then ascii_of_nat (nat_of_ascii c + 32) else c.

Definition ascii_to_upper (c : ascii) : ascii :=
  if is_ascii_lower c then ascii_of_nat (nat_of_ascii c - 32) else c.

Fixpoint map_string (f : ascii → ascii) (s : string) : string :=
  match s with
  | EmptyString => EmptyString
  | String c s' => String (f c) (map_string f s')
  end.

Fixpoint exists_string (p : ascii → bool) (s : string) : bool :=
  match s with
  | EmptyString => false
  | String c s' => p c || exists_string p s'
  end.

Fixpoint lstrip_ascii (s : string) : string :=
  match s with
  | EmptyString => EmptyString
  | String c s' => if is_ascii_space c then lstrip_ascii s' else s
  end.

Fixpoint rstrip_ascii (s : string) : string :=
  match s with
  | EmptyString => EmptyString
  | String c s' =>
      match rstrip_ascii s' with
      | EmptyString => if is_ascii_space c then EmptyString else String c EmptyString
      | r => String c r
      end
  end.

Definition ascii_ops : StrOps := {|
  lower := map_string ascii_to_lower;
  upper := map_string ascii_to_upper;
  strip := λ s, rstrip_ascii (lstrip_ascii s);
  isupper := λ s, exists_string is_ascii_upper s && negb (exists_string is_ascii_lower s);
|}.

(** ** String operations written out

    These act on single ASCII characters, whose bytes never occur inside a
    multi-byte UTF-8 sequence, so the byte-level definitions are exact. *)

(** [s.replace(old, new)] for one-character [old] and [new]. *)
Definition replace (old new : ascii) (s : string) : string :=
  map_string (λ c, if Ascii.eqb c old then new else c) s.

(** [c in s] for a one-character [c]. *)
Definition contains (c : ascii) (s : string) : bool :=
  exists_string (Ascii.eqb c) s.

(** [s.startswith(c)] for a one-character [c]. *)
Definition startswith (c : ascii) (s : string) : bool :=
  match s with
  | EmptyString => false
  | String c' _ => Ascii.eqb c' c
  end.

(** [s.split(sep, 1)]: at most one split, at the first [sep]. *)
Fixpoint split1 (sep : ascii) (s : string) : list string :=
  match s with
  | EmptyString => [EmptyString]
  | String c s' =>
      if Ascii.eqb c sep then [EmptyString; s']
      else match split1 sep s' with
           | hd :: tl => String c hd :: tl
           | [] => [String c EmptyString]
           end
  end.

(** [sep.join(words)]. *)
Definition join (sep : string) (words : list string) : string :=
  String.concat sep words.

(** ** Exceptions *)

Inductive exn : Type :=
  | KeyError (key : string).

Inductive result (A : Type) : Type :=
  | Ok (a : A)
  | Raise (e : exn).

Arguments Ok {A} a.
Arguments Raise {A} e.

#[global] Instance result_ret : MRet result := λ A a, Ok a.
#[global] Instance result_bind : MBind result := λ A B f m,
  match m with
  | Ok a => f a
  | Raise e => Raise e
  end.

(** [d[k]]. *)
Definition getitem {V} (d : gmap string V) (k : string) : result V :=
  match d !! k with
  | Some v => Ok v
  | None => Raise (KeyError k)
  end.

(** [d[k].append(x)]: the list stored under [k] grows in place. *)
Definition append {A} (d : gmap string (list A)) (k : string) (x : A)
  : result (gmap string (list A)) :=
  l ← getitem d k; mret (<[k := l ++ [x]]> d).

(** [acc.extend(d[k])]. *)
Definition extend {A} (acc : list A) (d : gmap string (list A)) (k : string)
  : result (list A) :=
  l ← getitem d k; mret (acc ++ l).

(** [for x in xs: s = body(s, x)], stopping at the first exception. *)
Fixpoint for_each {S A} (body : S → A → result S) (xs : list A) (s : S) : result S :=
  match xs with
  | [] => mret s
  | x :: xs' => s' ← body s x; for_each body xs' s'
  end.

(** [enumerate(xs)]. *)
Definition enumerate {A} (xs : list A) : list (nat * A) := imap pair xs.

(** ** Tokens and the dictionary source *)

(** A tagged word [(word, pos)]. *)
Abbreviation token := (string * string)%type.

(** What opening and reading the dictionary file can do: the path does
    not exist; reading raises after having delivered some lines; or the
    file is read to its end. *)
Inductive dict_file : Type :=
  | NotFound
  | ReadError (delivered : list string)
  | Text (lines : list string).

(** The lookup key that both converters compute from a surface word:
    [word.lower().replace(" ", "_")]. *)
Definition normalized `{StrOps} (word : string) : string :=
  replace " " "_" (lower word).

(** A [dict] display [{k1: v1, k2: v2, ...}]: later entries win. *)
Definition dict_literal {V} (entries : list (string * V)) : gmap string V :=
  fold_left (λ d kv, <[kv.1 := kv.2]> d) entries ∅.

(** ** The classification pass, in general

    Both converters file each token under one key of the [categories]
    dictionary, chosen from the token and from the buckets filled so far.
    [place] is the effect of [categories[k].append(tok)] when [k] is
    present; [labels_from] lists the keys chosen along the pass; and
    [members] selects, in input order, the tokens filed under one key. *)

Definition place (categories : gmap string (list token)) (k : string) (tok : token)
  : gmap string (list token) :=
  <[k := categories !!! k ++ [tok]]> categories.

Fixpoint labels_from (target : gmap string (list token) → token → string)
    (categories : gmap string (list token)) (toks : list token) : list string :=
  match toks with
  | [] => []
  | tok :: toks' =>
      let k := target categories tok in
      k :: labels_from target (place categories k tok) toks'
  end.

Definition members (k : string) (toks : list token) (labels : list string)
  : list token :=
  (filter (λ p, p.2 = k) (zip toks labels)).*1.


(** * The time-aware converter, [src/core/sign_language_converter.py] *)

Module Core.
Section converter.
Context `{StrOps}.

(** The attributes of the converter object that conversion reads. *)
Record converter : Type := Converter {
  is_initialized : bool;
  basic_signs : gmap string string;
}.

Definition _get_fallback_dictionary : gmap string string :=
  dict_literal [
    ("tôi", "TÔI"); ("bạn", "BẠN"); ("họ", "HỌ");
    ("chúng tôi", "CHÚNG-TÔI"); ("chúng ta", "CHÚNG-TA");
    ("đi", "ĐI"); ("ăn", "ĂN"); ("học", "HỌC"); ("làm", "LÀM"); ("nói", "NÓI");
    ("một", "1"); ("hai", "2"); ("ba", "3"); ("bốn", "4"); ("năm", "5");
    ("không", "KHÔNG"); ("có", "CÓ"); ("rất", "RẤT"); ("và", "VÀ")
  ].

(** The body of the loop over the lines of the dictionary file.  The
    [except ValueError] branch is the case of [split] not giving two
    parts. *)
Definition load_line (dictionary : gmap string string) (line : string)
  : gmap string string :=
  let line := strip line in
  if bool_decide (line = "") || startswith "#" line then dictionary
  else if contains "=" line then
    match split1 "=" line with
    | [vietnamese_word; sign_word] =>
        let vietnamese_word := lower (strip vietnamese_word) in
        let sign_word := upper (strip sign_word) in
        if negb (bool_decide (vietnamese_word = "")) && negb (bool_decide (sign_word = ""))
        then <[vietnamese_word := sign_word]> dictionary
        else dictionary
    | _ => dictionary
    end
  else dictionary.

Definition _load_dictionary_from_file (file : dict_file) : gmap string string :=
  match file with
  | NotFound => _get_fallback_dictionary
  | ReadError _ => _get_fallback_dictionary
  | Text lines => fold_left load_line lines ∅
  end.

(** [__init__] and [_init_conversion_rules] on the first construction of
    the singleton. *)
Definition init (file : dict_file) : converter :=
  {| is_initialized := true; basic_signs := _load_dictionary_from_file file |}.

Definition time_words : gset string :=
  {[ "hôm nay"; "ngày mai"; "hôm qua"; "tuần này"; "tháng này";
     "sáng"; "chiều"; "tối"; "đêm"; "bây giờ"; "lúc này" ]}.

Definition _is_time_expression (word : string) : bool :=
  bool_decide (word ∈ time_words).

Definition empty_categories : gmap string (list token) :=
  dict_literal [
    ("subjects", []); ("objects", []); ("verbs", []); ("adjectives", []);
    ("adverbs", []); ("numbers", []); ("pronouns", []); ("prepositions", []);
    ("time_expressions", []); ("others", [])
  ].

(** The body of the loop of [_categorize_words]. *)
Definition categorize_word (categories : gmap string (list token)) (tok : token)
  : result (gmap string (list token)) :=
  let '(word, pos) := tok in
  let word_lower := lower word in
  if decide (pos = "PRON") then append categories "pronouns" (word, pos)
  else if decide (pos ∈ ["NOUN"; "PROPN"]) then
    subjects ← getitem categories "subjects";
    if decide (length subjects = 0) then
      verbs ← getitem categories "verbs";
      if decide (length verbs = 0)
      then append categories "subjects" (word, pos)
      else append categories "objects" (word, pos)
    else append categories "objects" (word, pos)
  else if decide (pos = "VERB") then append categories "verbs" (word, pos)
  else if decide (pos = "ADJ") then append categories "adjectives" (word, pos)
  else if decide (pos = "ADV") then append categories "adverbs" (word, pos)
  else if decide (pos = "NUM") then append categories "numbers" (word, pos)
  else if decide (pos = "ADP") then append categories "prepositions" (word, pos)
  else if _is_time_expression word_lower
       then append categories "time_expressions" (word, pos)
       else append categories "others" (word, pos).

Definition _categorize_words (pos_tagged_words : list token)
  : result (gmap string (list token)) :=
  for_each categorize_word pos_tagged_words empty_categories.

(** The key under which [categorize_word] files a token, given the
    buckets filled so far. *)
Definition bucket_of (categories : gmap string (list token)) (tok : token) : string :=
  let '(word, pos) := tok in
  if decide (pos = "PRON") then "pronouns"
  else if decide (pos ∈ ["NOUN"; "PROPN"]) then
    if decide (length (categories !!! "subjects") = 0
               ∧ length (categories !!! "verbs") = 0)
    then "subjects" else "objects"
  else if decide (pos = "VERB") then "verbs"
  else if decide (pos = "ADJ") then "adjectives"
  else if decide (pos = "ADV") then "adverbs"
  else if decide (pos = "NUM") then "numbers"
  else if decide (pos = "ADP") then "prepositions"
  else if _is_time_expression (lower word) then "time_expressions"
  else "others".

(** The bucket of origin of every token of a sentence, in input order. *)
Definition bucket_labels (pos_tagged_words : list token) : list string :=
  labels_from bucket_of empty_categories pos_tagged_words.

(** The keys of [categories], and the order in which
    [_reorder_for_sign_language] reads them. *)
Definition bucket_keys : gset string :=
  {[ "subjects"; "objects"; "verbs"; "adjectives"; "adverbs"; "numbers";
     "pronouns"; "prepositions"; "time_expressions"; "others" ]}.

Definition bucket_order : list string :=
  [ "time_expressions"; "pronouns"; "subjects"; "adjectives"; "numbers";
    "objects"; "verbs"; "adverbs"; "prepositions"; "others" ].

Definition _reorder_for_sign_language (categorized_words : gmap string (list token))
  : result (list token) :=
  let reordered := [] in
  reordered ← extend reordered categorized_words "time_expressions";
  reordered ← extend reordered categorized_words "pronouns";
  reordered ← extend reordered categorized_words "subjects";
  reordered ← extend reordered categorized_words "adjectives";
  reordered ← extend reordered categorized_words "numbers";
  reordered ← extend reordered categorized_words "objects";
  reordered ← extend reordered categorized_words "verbs";
  reordered ← extend reordered categorized_words "adverbs";
  reordered ← extend reordered categorized_words "prepositions";
  reordered ← extend reordered categorized_words "others";
  mret reordered.

(** One entry of the [word_details] list.  [dictionary_action] holds
    [dictionary_match], which is [None] until a lookup succeeds. *)
Record WordDetail : Type := {
  index : nat;
  original_word : string;
  pos_tag : string;
  has_dictionary_definition : bool;
  dictionary_action : option string;
  in_dictionary : bool;
}.

(** The body of the loop of [_create_word_details]. *)
Definition word_detail (signs : gmap string string)
    (word_details : list WordDetail) (item : nat * token) : result (list WordDetail) :=
  let '(index, (word, pos)) := item in
  let word_lower := lower word in
  let normalized_word := replace " " "_" word_lower in
  '(dictionary_match, has_dictionary_definition) ←
    (if decide (is_Some (signs !! normalized_word))
     then v ← getitem signs normalized_word; mret (Some v, true)
     else mret (None, false));
  mret (word_details ++ [
    {| index := index + 1;
       original_word := word;
       pos_tag := pos;
       has_dictionary_definition := has_dictionary_definition;
       dictionary_action :=
         (if has_dictionary_definition
          then dictionary_match
          else Some (upper word +:+ "[" +:+ pos +:+ "]"));
       in_dictionary := has_dictionary_definition |} ]).

Definition _create_word_details (self : converter) (pos_tagged_words : list token)
  : result (list WordDetail) :=
  for_each (word_detail (basic_signs self)) (enumerate pos_tagged_words) [].

Record StructureChanges : Type := {
  subjects : nat;
  verbs : nat;
  objects : nat;
  adjectives : nat;
  time_expressions : nat;
  others : nat;
}.

Record ReorderStrategy : Type := {
  original_order : string;
  sign_language_order : string;
  time_placement : string;
  adjective_placement : string;
}.

(** The [structure_analysis] report; its key [reorder_strategy] is the
    field [strategy]. *)
Record Analysis : Type := {
  word_count : nat;
  reordered_count : nat;
  structure_changes : StructureChanges;
  strategy : ReorderStrategy;
  conversion_applied : bool;
}.

Definition _create_analysis (original_words : list token)
    (categorized : gmap string (list token)) (final_sequence : list string)
  : result Analysis :=
  s ← getitem categorized "subjects";
  v ← getitem categorized "verbs";
  o ← getitem categorized "objects";
  a ← getitem categorized "adjectives";
  t ← getitem categorized "time_expressions";
  x ← getitem categorized "others";
  mret {|
    word_count := length original_words;
    reordered_count := length final_sequence;
    structure_changes := {|
      subjects := length s; verbs := length v; objects := length o;
      adjectives := length a; time_expressions := length t; others := length x |};
    strategy := {|
      original_order := "SVO (Subject-Verb-Object)";
      sign_language_order := "SOV (Subject-Object-Verb)";
      time_placement := "Beginning of sentence";
      adjective_placement := "After subject" |};
    conversion_applied := true |}.

(** The dictionary that a successful conversion returns. *)
Record ConversionResult : Type := {
  original_sentence : string;
  sign_language_sequence : list string;
  structure_analysis : Analysis;
  pos_analysis : gmap string (list token);
  word_details : list WordDetail;
  reorder_strategy : string;
}.

(** What [convert_to_sign_language] returns: the dictionary with the one
    key [error], or the conversion result. *)
Inductive response : Type :=
  | Error (error : string)
  | Converted (r : ConversionResult).

Definition convert_to_sign_language (self : converter) (pos_tagged_words : list token)
  : result response :=
  if negb (is_initialized self)
  then mret (Error "Sign Language Converter is not initialized")
  else
    categorized_words ← _categorize_words pos_tagged_words;
    reordered_structure ← _reorder_for_sign_language categorized_words;
    let final_sequence := reordered_structure.*1 in
    word_details ← _create_word_details self pos_tagged_words;
    analysis ← _create_analysis pos_tagged_words categorized_words final_sequence;
    mret (Converted {|
      original_sentence := join " " (pos_tagged_words.*1);
      sign_language_sequence := final_sequence;
      structure_analysis := analysis;
      pos_analysis := categorized_words;
      word_details := word_details;
      reorder_strategy := "Vietnamese SVO → Sign Language SOV" |}).

End converter.
End Core.

(** * The first converter, [sign_language_converter.py] *)

Module Legacy.
Section converter.
Context `{StrOps}.

Record converter : Type := Converter {
  is_initialized : bool;
  sign_dictionary : gmap string string;
}.

(** The body of the loop over the lines of the dictionary file; the
    branches that only print a warning leave the dictionary as it is. *)
Definition load_line (dictionary : gmap string string) (line : string)
  : gmap string string :=
  let line := strip line in
  if bool_decide (line = "") || startswith "#" line then dictionary
  else if contains "=" line then
    let parts := split1 "=" line in
    match parts with
    | [part0; part1] =>
        let vietnamese_word := strip part0 in
        let sign_word := strip part1 in
        if negb (bool_decide (vietnamese_word = "")) && negb (bool_decide (sign_word = ""))
        then <[vietnamese_word := sign_word]> dictionary
        else dictionary
    | _ => dictionary
    end
  else dictionary.

(** Both [except] branches fall through to [return dictionary], with the
    entries read so far. *)
Definition _load_dictionary_from_file (file : dict_file) : gmap string string :=
  match file with
  | NotFound => ∅
  | ReadError delivered => fold_left load_line delivered ∅
  | Text lines => fold_left load_line lines ∅
  end.

Definition init (file : dict_file) : converter :=
  {| is_initialized := true; sign_dictionary := _load_dictionary_from_file file |}.

Definition reload_dictionary (self : converter) (file : dict_file) : converter :=
  {| is_initialized := is_initialized self;
     sign_dictionary := _load_dictionary_from_file file |}.

Definition empty_categories : gmap string (list token) :=
  dict_literal [
    ("subjects", []); ("objects", []); ("verbs", []); ("adjectives", []);
    ("adverbs", []); ("numbers", []); ("pronouns", []); ("prepositions", []);
    ("others", [])
  ].

(** The body of the loop of [_categorize_words]. *)
Definition categorize_word (categories : gmap string (list token)) (tok : token)
  : result (gmap string (list token)) :=
  let '(word, pos) := tok in
  if decide (pos = "PRON") then append categories "pronouns" (word, pos)
  else if decide (pos ∈ ["NOUN"; "PROPN"]) then
    subjects ← getitem categories "subjects";
    if decide (length subjects = 0) then
      verbs ← getitem categories "verbs";
      if decide (length verbs = 0)
      then append categories "subjects" (word, pos)
      else append categories "objects" (word, pos)
    else append categories "objects" (word, pos)
  else if decide (pos = "VERB") then append categories "verbs" (word, pos)
  else if decide (pos = "ADJ") then append categories "adjectives" (word, pos)
  else if decide (pos = "ADV") then append categories "adverbs" (word, pos)
  else if decide (pos = "NUM") then append categories "numbers" (word, pos)
  else if decide (pos = "ADP") then append categories "prepositions" (word, pos)
  else append categories "others" (word, pos).

Definition _categorize_words (pos_tagged_words : list token)
  : result (gmap string (list token)) :=
  for_each categorize_word pos_tagged_words empty_categories.

(** The key under which [categorize_word] files a token, given the
    buckets filled so far. *)
Definition bucket_of (categories : gmap string (list token)) (tok : token) : string :=
  let '(word, pos) := tok in
  if decide (pos = "PRON") then "pronouns"
  else if decide (pos ∈ ["NOUN"; "PROPN"]) then
    if decide (length (categories !!! "subjects") = 0
               ∧ length (categories !!! "verbs") = 0)
    then "subjects" else "objects"
  else if decide (pos = "VERB") then "verbs"
  else if decide (pos = "ADJ") then "adjectives"
  else if decide (pos = "ADV") then "adverbs"
  else if decide (pos = "NUM") then "numbers"
  else if decide (pos = "ADP") then "prepositions"
  else "others".

(** The bucket of origin of every token of a sentence, in input order. *)
Definition bucket_labels (pos_tagged_words : list token) : list string :=
  labels_from bucket_of empty_categories pos_tagged_words.

(** The keys of [categories], and the order in which
    [_reorder_for_sign_language] reads them. *)
Definition bucket_keys : gset string :=
  {[ "subjects"; "objects"; "verbs"; "adjectives"; "adverbs"; "numbers";
     "pronouns"; "prepositions"; "others" ]}.

Definition bucket_order : list string :=
  [ "pronouns"; "subjects"; "adjectives"; "numbers";
    "objects"; "verbs"; "adverbs"; "prepositions"; "others" ].

Definition _reorder_for_sign_language (categorized_words : gmap string (list token))
  : result (list token) :=
  let reordered := [] in
  reordered ← extend reordered categorized_words "pronouns";
  reordered ← extend reordered categorized_words "subjects";
  reordered ← extend reordered categorized_words "adjectives";
  reordered ← extend reordered categorized_words "numbers";
  reordered ← extend reordered categorized_words "objects";
  reordered ← extend reordered categorized_words "verbs";
  reordered ← extend reordered categorized_words "adverbs";
  reordered ← extend reordered categorized_words "prepositions";
  reordered ← extend reordered categorized_words "others";
  mret reordered.

(** The body of the loop of [_convert_vocabulary]. *)
Definition convert_word (signs : gmap string string)
    (sign_sequence : list string) (tok : token) : result (list string) :=
  let '(word, pos) := tok in
  let word_lower := lower word in
  let normalized_word := replace " " "_" word_lower in
  if decide (is_Some (signs !! normalized_word))
  then sign ← getitem signs normalized_word; mret (sign_sequence ++ [sign])
  else mret (sign_sequence ++ [upper word]).

Definition _convert_vocabulary (self : converter) (word_sequence : list token)
  : result (list string) :=
  for_each (convert_word (sign_dictionary self)) word_sequence [].

Record StructureChanges : Type := {
  subjects : nat;
  verbs : nat;
  objects : nat;
  adjectives : nat;
  others : nat;
}.

Record Analysis : Type := {
  word_count : nat;
  sign_count : nat;
  structure_changes : StructureChanges;
  reorder_applied : bool;
  vocabulary_mapped : nat;
}.

Definition _create_analysis (self : converter) (original_words : list token)
    (categorized : gmap string (list token)) (sign_sequence : list string)
  : result Analysis :=
  s ← getitem categorized "subjects";
  v ← getitem categorized "verbs";
  o ← getitem categorized "objects";
  a ← getitem categorized "adjectives";
  x ← getitem categorized "others";
  mret {|
    word_count := length original_words;
    sign_count := length sign_sequence;
    structure_changes := {|
      subjects := length s; verbs := length v; objects := length o;
      adjectives := length a; others := length x |};
    reorder_applied := true;
    vocabulary_mapped :=
      length (filter
        (λ s, negb (isupper s) = true ∨ s ∈ (map_to_list (sign_dictionary self)).*2)
        sign_sequence) |}.

Record ConversionResult : Type := {
  original_sentence : string;
  sign_language_sequence : list string;
  structure_analysis : Analysis;
  pos_analysis : gmap string (list token);
}.

Inductive response : Type :=
  | Error (error : string)
  | Converted (r : ConversionResult).

Definition convert_to_sign_language (self : converter) (pos_tagged_words : list token)
  : result response :=
  if negb (is_initialized self)
  then mret (Error "Sign Language Converter is not initialized")
  else
    categorized_words ← _categorize_words pos_tagged_words;
    reordered_structure ← _reorder_for_sign_language categorized_words;
    sign_sequence ← _convert_vocabulary self reordered_structure;
    analysis ← _create_analysis self pos_tagged_words categorized_words sign_sequence;
    mret (Converted {|
      original_sentence := join " " (pos_tagged_words.*1);
      sign_language_sequence := sign_sequence;
      structure_analysis := analysis;
      pos_analysis := categorized_words |}).

End converter.
End Legacy.

(** * The tagger adapters, [src/core/tagger.py] and [tagger.py]

    The library function [pos_tag] is no part of the repository: it is an
    argument, which for a sentence either raises ([None]) or returns its
    list of (word, tag) pairs. *)

Module Tagger.

Record tagger : Type := {
  is_initialized : bool;
}.

(** [__init__] on the first construction of the singleton: the tagger is
    initialized when the test call returns a non-empty list. *)
Definition init (pos_tag : string → option (list token)) : tagger :=
  match pos_tag "Xin chào" with
  | Some test_result =>
      if bool_decide (test_result = [])
      then {| is_initialized := false |}
      else {| is_initialized := true |}
  | None => {| is_initialized := false |}
  end.

Definition tag_mapping : gmap string string :=
  dict_literal [
    ("N", "NOUN"); ("Np", "PROPN"); ("Ny", "NOUN");
    ("V", "VERB"); ("Vb", "VERB"); ("Vu", "AUX");
    ("A", "ADJ"); ("Ab", "ADJ");
    ("R", "ADV"); ("Rb", "ADV");
    ("P", "PRON"); ("Pp", "PRON");
    ("E", "ADP"); ("Eb", "ADP");
    ("C", "CCONJ"); ("Cc", "CCONJ"); ("Cs", "SCONJ");
    ("L", "DET"); ("Lb", "DET");
    ("M", "NUM"); ("Mb", "NUM");
    ("CH", "PUNCT"); (".", "PUNCT"); (",", "PUNCT"); ("?", "PUNCT"); ("!", "PUNCT");
    ("T", "PART"); ("Tb", "PART");
    ("I", "INTJ");
    ("X", "X"); ("Fw", "X")
  ].

(** [tag_mapping.get(underthesea_tag, "X")]. *)
Definition _convert_to_ud_tag (underthesea_tag : string) : string :=
  default "X" (tag_mapping !! underthesea_tag).

Definition tag_sentence (pos_tag : string → option (list token))
    (self : tagger) (sentence : string) : list token :=
  if negb (is_initialized self) then []
  else
    match pos_tag sentence with
    | Some pos_tags_result =>
        fold_left
          (λ formatted_tags item,
             let '(word, tag) := item in
             let ud_tag := _convert_to_ud_tag tag in
             formatted_tags ++ [(word, ud_tag)])
          pos_tags_result []
    | None => []
    end.

End Tagger.

(** The tagger of the first version differs in one entry of the table:
    it maps the auxiliary verbs [Vu] to [VERB]. *)
Module LegacyTagger.

Record tagger : Type := {
  is_initialized : bool;
}.

Definition tag_mapping : gmap string string :=
  dict_literal [
    ("N", "NOUN"); ("Np", "PROPN"); ("Ny", "NOUN");
    ("V", "VERB"); ("Vb", "VERB"); ("Vu", "VERB");
    ("A", "ADJ"); ("Ab", "ADJ");
    ("R", "ADV"); ("Rb", "ADV");
    ("P", "PRON"); ("Pp", "PRON");
    ("E", "ADP"); ("Eb", "ADP");
    ("C", "CCONJ"); ("Cc", "CCONJ"); ("Cs", "SCONJ");
    ("L", "DET"); ("Lb", "DET");
    ("M", "NUM"); ("Mb", "NUM");
    ("CH", "PUNCT"); (".", "PUNCT"); (",", "PUNCT"); ("?", "PUNCT"); ("!", "PUNCT");
    ("T", "PART"); ("Tb", "PART");
    ("I", "INTJ");
    ("X", "X"); ("Fw", "X")
  ].

Definition _convert_to_ud_tag (underthesea_tag : string) : string :=
  default "X" (tag_mapping !! underthesea_tag).

(** [tag_sentence]; [is_initialized] is the attribute that the
    constructor sets, to false when the test call raises or returns
    nothing. *)
Definition tag_sentence (pos_tag : string → option (list token))
    (self : tagger) (sentence : string) : list token :=
  if negb (is_initialized self) then []
  else
    match pos_tag sentence with
    | Some pos_tags_result =>
        fold_left
          (λ formatted_tags item,
             let '(word, tag) := item in
             let ud_tag := _convert_to_ud_tag tag in
             formatted_tags ++ [(word, ud_tag)])
          pos_tags_result []
    | None => []
    end.

End LegacyTagger.

(** * The dictionary report of the first converter,
    [get_sign_dictionary_info] in [sign_language_converter.py]

    A [dict] yields its keys in insertion order, which a [gmap] does not
    record: the order of the keys is an argument of the model. *)

Module LegacyInfo.

Definition pronouns : list string :=
  ["tôi"; "mình"; "em"; "bạn"; "anh"; "chị"; "cô"; "họ"; "chúng_ta"; "chúng_tôi"].

Definition verbs : list string :=
  ["là"; "có"; "không"; "đi"; "đến"; "về"; "tới"; "ăn"; "uống"; "ngủ"; "làm"; "học";
   "đọc"; "viết"; "nói"; "nghe"; "nhìn"; "thấy"; "yêu"; "thích"; "ghét"; "mua"; "bán";
   "cho"; "lấy"].

Definition adjectives : list string :=
  ["đẹp"; "xấu"; "tốt"; "lớn"; "nhỏ"; "cao"; "thấp"; "dài"; "ngắn"; "rộng"; "hẹp";
   "nóng"; "lạnh"; "ấm"; "mát"; "vui"; "buồn"; "giận"; "hạnh_phúc"].

Definition time_words : list string :=
  ["hôm_nay"; "ngày_mai"; "hôm_qua"; "sáng"; "trưa"; "chiều"; "tối"; "tuần"; "tháng";
   "năm"].

Definition question_words : list string :=
  ["gì"; "ai"; "đâu"; "khi_nào"; "như_thế_nào"; "tại_sao"].

Definition numbers : list string :=
  ["một"; "hai"; "ba"; "bốn"; "năm"; "sáu"; "bảy"; "tám"; "chín"; "mười"].

Definition empty_categories : gmap string (list string) :=
  dict_literal [
    ("pronouns", []); ("verbs", []); ("adjectives", []); ("nouns", []);
    ("time_words", []); ("question_words", []); ("numbers", []); ("others", [])
  ].

(** The body of the loop over the keys of the dictionary. *)
Definition categorize_key (categories : gmap string (list string)) (word : string)
  : result (gmap string (list string)) :=
  if decide (word ∈ pronouns) then append categories "pronouns" word
  else if decide (word ∈ verbs) then append categories "verbs" word
  else if decide (word ∈ adjectives) then append categories "adjectives" word
  else if decide (word ∈ time_words) then append categories "time_words" word
  else if decide (word ∈ question_words) then append categories "question_words" word
  else if decide (word ∈ numbers) then append categories "numbers" word
  else append categories "nouns" word.

(** The category under which [categorize_key] files a key. *)
Definition category_of (word : string) : string :=
  if decide (word ∈ pronouns) then "pronouns"
  else if decide (word ∈ verbs) then "verbs"
  else if decide (word ∈ adjectives) then "adjectives"
  else if decide (word ∈ time_words) then "time_words"
  else if decide (word ∈ question_words) then "question_words"
  else if decide (word ∈ numbers) then "numbers"
  else "nouns".

Record DictionaryInfo : Type := {
  total_entries : nat;
  categories : gmap string nat;
  sample_words : gmap string (list string);
  dictionary_source : string;
  note : string;
}.

Definition get_sign_dictionary_info (self : Legacy.converter) (keys : list string)
  : result DictionaryInfo :=
  categories ← for_each categorize_key keys empty_categories;
  n_pronouns ← getitem categories "pronouns";
  n_verbs ← getitem categories "verbs";
  n_adjectives ← getitem categories "adjectives";
  n_nouns ← getitem categories "nouns";
  n_time_words ← getitem categories "time_words";
  n_question_words ← getitem categories "question_words";
  n_numbers ← getitem categories "numbers";
  s_pronouns ← getitem categories "pronouns";
  s_verbs ← getitem categories "verbs";
  s_adjectives ← getitem categories "adjectives";
  s_nouns ← getitem categories "nouns";
  mret {|
    total_entries := size (Legacy.sign_dictionary self);
    categories := dict_literal [
      ("pronouns", length n_pronouns); ("verbs", length n_verbs);
      ("adjectives", length n_adjectives); ("nouns", length n_nouns);
      ("time_words", length n_time_words);
      ("question_words", length n_question_words);
      ("numbers", length n_numbers) ];
    sample_words := dict_literal [
      ("pronouns", take 5 s_pronouns); ("verbs", take 5 s_verbs);
      ("adjectives", take 5 s_adjectives); ("nouns", take 5 s_nouns) ];
    dictionary_source := "sign_language_dictionary.txt";
    note := "Dictionary can be updated by editing the sign_language_dictionary.txt file";
  |}.

End LegacyInfo.

(** * The conversion endpoint, [src/api/main.py]

    The endpoint measures the time that tagging and conversion take; the
    measured value and its rounding are arguments of the model.  A body
    that fails the validation of the request model never reaches the
    handler and is answered with status 422. *)

Module Api.

(** What a handler does: return a value or raise [HTTPException]. *)
Inductive http (A : Type) : Type :=
  | Returned (a : A)
  | HTTPException (status_code : nat) (detail : string).

Arguments Returned {A} a.
Arguments HTTPException {A} status_code detail.

#[global] Instance http_ret : MRet http := λ A a, Returned a.
#[global] Instance http_bind : MBind http := λ A B f m,
  match m with
  | Returned a => f a
  | HTTPException status_code detail => HTTPException status_code detail
  end.

(** [str(e)] for a [KeyError] on a key made of plain printable
    characters: the key between single quotes. *)
Definition str_KeyError (key : string) : string := "'" +:+ key +:+ "'".

(** The request model [TextRequest] of [src/api/models.py]: [text] is a
    required string with [min_length=1].  The framework builds the
    request from the body before it calls a handler; [TextRequest_new]
    is that construction for a body that holds the string [text], and
    gives [None] when the validation fails.  The length is counted in
    characters there and in bytes here; both are zero for the empty
    string only. *)
Record TextRequest : Type := {
  text : string;
}.

Definition TextRequest_new (text : string) : option TextRequest :=
  if decide (String.length text < 1) then None else Some {| text := text |}.

(** What the client receives: what the handler did, or the framework's
    answer to a body that fails the validation of the request model, in
    which case the handler does not run. *)
Inductive answer (A : Type) : Type :=
  | Handled (h : http A)
  | RequestValidationError.

Arguments Handled {A} h.
Arguments RequestValidationError {A}.

(** The status code of the response. *)
Definition status {A} (a : answer A) : nat :=
  match a with
  | Handled (Returned _) => 200
  | Handled (HTTPException status_code _) => status_code
  | RequestValidationError => 422
  end.

Section endpoints.
Context `{StrOps}.
Context {time : Type} (round2 : time → time).

Definition validate_text_input (text : string) : http string :=
  let text := strip text in
  if bool_decide (text = "")
  then HTTPException 400 "Please provide text input!"
  else Returned text.

Definition check_component_initialization (component_is_initialized : bool)
    (component_name : string) : http unit :=
  if negb component_is_initialized
  then HTTPException 500 ("Error loading " +:+ component_name +:+ "!")
  else Returned tt.

(** The response model; a field that the handler does not set is [None].
    [structure_analysis] is the report of the converter with the key
    [processing_time] added. *)
Record SignLanguageResponse : Type := {
  success : bool;
  original_sentence : option string;
  pos_analysis : option (list token);
  sign_language_sequence : option (list string);
  structure_analysis : option (Core.Analysis * time);
  pos_structure : option (gmap string (list token));
  word_details : option (list Core.WordDetail);
  error : option string;
}.

(** The body of the handler [convert_to_sign_language], as a function of
    [request.text].  An exception of the converter, and the missing key
    [structure_analysis] of its error dictionary, end in the
    [except Exception] branch. *)
Definition convert_to_sign_language
    (pos_tag : string → option (list token))
    (pos_tagger : Tagger.tagger) (sign_converter : Core.converter)
    (processing_time : time) (request_text : string) : http SignLanguageResponse :=
  text ← validate_text_input request_text;
  _ ← check_component_initialization (Tagger.is_initialized pos_tagger) "POS Tagger";
  _ ← check_component_initialization (Core.is_initialized sign_converter)
        "Sign Language Converter";
  let pos_tagged_words := Tagger.tag_sentence pos_tag pos_tagger text in
  match Core.convert_to_sign_language sign_converter pos_tagged_words with
  | Raise (KeyError key) =>
      HTTPException 500 ("Conversion error: " +:+ str_KeyError key)
  | Ok (Core.Error _) =>
      HTTPException 500 ("Conversion error: " +:+ str_KeyError "structure_analysis")
  | Ok (Core.Converted sign_result) =>
      Returned {|
        success := true;
        original_sentence := Some (Core.original_sentence sign_result);
        pos_analysis := Some pos_tagged_words;
        sign_language_sequence := Some (Core.sign_language_sequence sign_result);
        structure_analysis :=
          Some (Core.structure_analysis sign_result, round2 processing_time);
        pos_structure := Some (Core.pos_analysis sign_result);
        word_details := Some (Core.word_details sign_result);
        error := None;
      |}
  end.

(** The endpoint [POST /api/convert-sign-language] for a body that holds
    the string [body_text] under [text]: the request model is validated
    first, and the handler runs on the request only when that
    succeeds. *)
Definition post_convert_sign_language
    (pos_tag : string → option (list token))
    (pos_tagger : Tagger.tagger) (sign_converter : Core.converter)
    (processing_time : time) (body_text : string) : answer SignLanguageResponse :=
  match TextRequest_new body_text with
  | None => RequestValidationError
  | Some request =>
      Handled (convert_to_sign_language pos_tag pos_tagger sign_converter
                 processing_time (text request))
  end.

End endpoints.
End Api.

(** * Positions in a sentence

    The vocabulary in which the classification rule is stated: where a
    position lies relative to the first token tagged [VERB], and whether
    a token tagged [NOUN], [PROPN] or [VERB] comes before a position. *)

Inductive verb_position : Type :=
  | NoVerb
  | BeforeVerb
  | AtVerb
  | AfterVerb.

Definition first_verb (toks : list token) : option nat :=
  fst <$> list_find (λ tok, tok.2 = "VERB") toks.

Definition position_relative_to_first_verb (toks : list token) (i : nat)
  : verb_position :=
  match first_verb toks with
  | None => NoVerb
  | Some v =>
      if decide (i < v) then BeforeVerb
      else if decide (i = v) then AtVerb
      else AfterVerb
  end.

Definition noun_or_verb (tok : token) : bool :=
  bool_decide (tok.2 ∈ ["NOUN"; "PROPN"; "VERB"]).

(** The bucket of a token as a function of its tag, of whether its
    lowercased word is a time expression, and of whether a noun or a verb
    precedes it. *)
Definition bucket_rule (pos : string) (is_time : bool) (preceded : bool) : string :=
  if decide (pos = "PRON") then "pronouns"
  else if decide (pos ∈ ["NOUN"; "PROPN"]) then
    if preceded then "objects" else "subjects"
  else if decide (pos = "VERB") then "verbs"
  else if decide (pos = "ADJ") then "adjectives"
  else if decide (pos = "ADV") then "adverbs"
  else if decide (pos = "NUM") then "numbers"
  else if decide (pos = "ADP") then "prepositions"
  else if is_time then "time_expressions"
  else "others".

(** A list of labels follows [bucket_rule] when it gives, for every
    position of the sentence, the bucket that the rule computes from the
    tag, from [time] and from the tokens before that position; [b0] tells
    whether a noun or a verb came before the sentence. *)
Definition follows_rule (time : token → bool) (b0 : bool)
    (toks : list token) (labels : list string) : Prop :=
  length labels = length toks
  ∧ ∀ i word pos, toks !! i = Some (word, pos) →
      labels !! i = Some (bucket_rule pos (time (word, pos))
                            (b0 || existsb noun_or_verb (take i toks))).

(** * Properties *)

(** ** The error monad and the dictionary primitives *)

Lemma bind_Ok {A B} (a : A) (f : A → result B) : (Ok a ≫= f) = f a.
Proof. done. Qed.

Lemma getitem_Ok {A} (d : gmap string (list A)) k :
  is_Some (d !! k) → getitem d k = Ok (d !!! k).
Proof.
  intros [v Hv]. unfold getitem. rewrite Hv.
  by rewrite (lookup_total_correct _ _ _ Hv).
Qed.

Lemma getitem_Some {V} (d : gmap string V) k v :
  d !! k = Some v → getitem d k = Ok v.
Proof. intros Hv. unfold getitem. by rewrite Hv. Qed.

Lemma append_Ok (d : gmap string (list token)) k tok :
  is_Some (d !! k) → append d k tok = Ok (place d k tok).
Proof. intros Hk. unfold append. by rewrite getitem_Ok. Qed.

Lemma extend_Ok {A} (acc : list A) (d : gmap string (list A)) k :
  is_Some (d !! k) → extend acc d k = Ok (acc ++ d !!! k).
Proof. intros Hk. unfold extend. by rewrite getitem_Ok. Qed.

Lemma place_lookup_total (d : gmap string (list token)) k k' tok :
  place d k tok !!! k' = if decide (k = k') then d !!! k' ++ [tok] else d !!! k'.
Proof.
  unfold place. case_decide as Hk.
  - subst k'. by rewrite lookup_total_insert_eq.
  - by rewrite lookup_total_insert_ne.
Qed.

Lemma place_dom (d : gmap string (list token)) k tok :
  k ∈ dom d → dom (place d k tok) = dom d.
Proof.
  intros Hk. unfold place. rewrite dom_insert_L.
  apply (subseteq_union_1_L (C := gset string)). by apply singleton_subseteq_l.
Qed.

Lemma in_dom_is_Some {V} (d : gmap string V) (keys : gset string) k :
  dom d = keys → k ∈ keys → is_Some (d !! k).
Proof. intros <- Hk. by apply elem_of_dom. Qed.

(** ** The stable selection [members] *)

Lemma members_nil k labels : members k [] labels = [].
Proof. done. Qed.

Lemma members_cons k tok toks l labels :
  members k (tok :: toks) (l :: labels) =
  if decide (l = k) then tok :: members k toks labels else members k toks labels.
Proof.
  unfold members. simpl. rewrite filter_cons. simpl.
  by case_decide.
Qed.

Lemma members_sublist k toks labels : members k toks labels `sublist_of` toks.
Proof.
  revert labels. induction toks as [|tok toks IH]; intros [|l labels];
    try (by apply sublist_nil_l).
  rewrite members_cons. case_decide.
  - by apply sublist_skip.
  - by apply sublist_cons.
Qed.

Lemma members_lookup k toks labels i tok :
  toks !! i = Some tok → labels !! i = Some k → tok ∈ members k toks labels.
Proof.
  revert labels i. induction toks as [|t toks IH]; intros [|l labels] [|i]; try done.
  - simpl. intros [= ->] [= ->]. rewrite members_cons, decide_True by done. left.
  - simpl. intros Ht Hl. rewrite members_cons. case_decide; [right|]; eauto.
Qed.

Lemma members_elem_of k toks labels tok :
  tok ∈ members k toks labels →
  ∃ i, toks !! i = Some tok ∧ labels !! i = Some k.
Proof.
  revert labels. induction toks as [|t toks IH]; intros [|l labels]; try by inversion 1.
  rewrite members_cons. case_decide as Hl.
  - intros [->|Hin]%elem_of_cons.
    + exists 0. by subst.
    + destruct (IH _ Hin) as (i & ? & ?). by exists (S i).
  - intros Hin. destruct (IH _ Hin) as (i & ? & ?). by exists (S i).
Qed.

Lemma concat_insert_one (f : string → list token) tok l (ks : list string) :
  NoDup ks → l ∈ ks →
  concat (map (λ k, if decide (l = k) then tok :: f k else f k) ks)
  ≡ₚ tok :: concat (map f ks).
Proof.
  induction ks as [|k ks IH]; [by inversion 2|].
  intros [Hk Hnd]%NoDup_cons Hl. simpl. case_decide as Heq.
  - subst k. simpl.
    assert (Hmap : map (λ k, if decide (l = k) then tok :: f k else f k) ks = map f ks).
    { apply map_ext_in. intros k' Hk'%list_elem_of_In.
      rewrite decide_False; [done|]. by intros <-. }
    by rewrite Hmap.
  - apply elem_of_cons in Hl as [?|Hl]; [done|].
    rewrite (IH Hnd Hl). by rewrite Permutation_middle.
Qed.

(** The selections under the keys of a duplicate-free list split the
    sentence: together they hold every token exactly once. *)
Lemma members_partition (ks : list string) toks labels :
  NoDup ks → length labels = length toks → Forall (λ l, l ∈ ks) labels →
  concat (map (λ k, members k toks labels) ks) ≡ₚ toks.
Proof.
  intros Hnd. revert labels.
  induction toks as [|tok toks IH]; intros [|l labels]; try done.
  - intros _ _. induction ks as [|k ks IHk]; [done|].
    simpl. apply NoDup_cons in Hnd as [_ ?]. by rewrite IHk.
  - simpl. intros [= Hlen] [Hl Hall]%Forall_cons.
    transitivity (tok :: concat (map (λ k, members k toks labels) ks));
      [|by rewrite (IH labels Hlen Hall)].
    rewrite <- (concat_insert_one (λ k, members k toks labels) tok l ks Hnd Hl).
    assert (Hmap : map (λ k, members k (tok :: toks) (l :: labels)) ks
                   = map (λ k, if decide (l = k) then tok :: members k toks labels
                               else members k toks labels) ks).
    { apply map_ext. intros k. apply members_cons. }
    by rewrite Hmap.
Qed.

(** ** The classification pass, in general *)

Section bucket_pass.
Context (target : gmap string (list token) → token → string).
Context (step : gmap string (list token) → token → result (gmap string (list token))).
Context (keys : gset string).
Hypothesis target_key : ∀ categories tok, target categories tok ∈ keys.
Hypothesis step_place : ∀ categories tok,
  dom categories = keys →
  step categories tok = Ok (place categories (target categories tok) tok).

Lemma labels_from_length categories toks :
  length (labels_from target categories toks) = length toks.
Proof.
  revert categories. induction toks as [|tok toks IH]; intros c; simpl; [done|].
  by rewrite IH.
Qed.

Lemma labels_from_keys categories toks :
  Forall (λ l, l ∈ keys) (labels_from target categories toks).
Proof.
  revert categories. induction toks as [|tok toks IH]; intros c; simpl; [done|].
  constructor; [apply target_key | apply IH].
Qed.

(** The pass never raises, keeps the keys of the dictionary, and appends
    to each bucket the tokens labelled with its key, in input order. *)
Lemma for_each_place toks categories :
  dom categories = keys →
  ∃ categories',
    for_each step toks categories = Ok categories'
    ∧ dom categories' = keys
    ∧ ∀ k, categories' !!! k =
           categories !!! k ++ members k toks (labels_from target categories toks).
Proof.
  revert categories. induction toks as [|tok toks IH]; intros c Hdom.
  - exists c. split_and!; [done..|]. intros k. by rewrite members_nil, app_nil_r.
  - simpl. rewrite (step_place c tok Hdom). simpl.
    set (k0 := target c tok).
    assert (Hk0 : k0 ∈ dom c) by (rewrite Hdom; apply target_key).
    destruct (IH (place c k0 tok)) as (c' & Hrun & Hdom' & Hget).
    { by rewrite place_dom. }
    exists c'. split_and!; [done..|]. intros k.
    rewrite Hget, place_lookup_total, members_cons.
    case_decide; [|done]. by rewrite <- app_assoc.
Qed.

End bucket_pass.

Lemma for_each_app {S A} (body : S → A → result S) xs ys s :
  for_each body (xs ++ ys) s = (s' ← for_each body xs s; for_each body ys s').
Proof.
  revert s. induction xs as [|x xs IH]; intros s; simpl; [done|].
  destruct (body s x); simpl; [apply IH|done].
Qed.

Lemma for_each_one {S A} (body : S → A → result S) x s s' :
  body s x = Ok s' → for_each body [x] s = Ok s'.
Proof. intros Hx. simpl. by rewrite Hx. Qed.

Lemma for_each_snoc {A B} (body : list B → A → result (list B)) (f : A → B) xs acc :
  (∀ acc x, body acc x = Ok (acc ++ [f x])) →
  for_each body xs acc = Ok (acc ++ (f <$> xs)).
Proof.
  intros Hbody. revert acc. induction xs as [|x xs IH]; intros acc; simpl.
  - by rewrite app_nil_r.
  - rewrite Hbody. simpl. rewrite IH. by rewrite <- app_assoc.
Qed.

Lemma dict_literal_nil_values {A} (ks : list string) k :
  dict_literal ((λ k, (k, @nil A)) <$> ks) !!! k = [].
Proof.
  unfold dict_literal.
  cut (∀ d : gmap string (list A), d !!! k = [] →
         fold_left (λ d kv, <[kv.1 := kv.2]> d) ((λ k, (k, [])) <$> ks) d !!! k = []).
  { intros Hcut. apply Hcut. by rewrite lookup_total_empty. }
  induction ks as [|k0 ks IH]; intros d Hd; simpl; [done|].
  apply IH. destruct (decide (k0 = k)) as [->|].
  - by rewrite lookup_total_insert_eq.
  - by rewrite lookup_total_insert_ne.
Qed.

(** ** The time-aware converter *)

Section core.
Context `{StrOps}.

Lemma core_bucket_of_key categories tok :
  Core.bucket_of categories tok ∈ Core.bucket_keys.
Proof.
  destruct tok as [word pos]. unfold Core.bucket_of, Core.bucket_keys.
  repeat case_decide; try destruct (Core._is_time_expression _); set_solver.
Qed.

Lemma core_empty_dom : dom Core.empty_categories = Core.bucket_keys.
Proof. by vm_compute. Qed.

Lemma core_empty_lookup k : Core.empty_categories !!! k = [].
Proof.
  apply (dict_literal_nil_values
    ["subjects"; "objects"; "verbs"; "adjectives"; "adverbs"; "numbers";
     "pronouns"; "prepositions"; "time_expressions"; "others"]).
Qed.

Lemma core_key_present (categories : gmap string (list token)) k :
  dom categories = Core.bucket_keys → k ∈ Core.bucket_order →
  is_Some (categories !! k).
Proof.
  intros Hdom Hk. apply (in_dom_is_Some _ _ _ Hdom).
  unfold Core.bucket_order in Hk. unfold Core.bucket_keys. set_solver.
Qed.

Lemma core_categorize_word_place categories tok :
  dom categories = Core.bucket_keys →
  Core.categorize_word categories tok
  = Ok (place categories (Core.bucket_of categories tok) tok).
Proof.
  intros Hdom. destruct tok as [word pos].
  assert (Hkey : ∀ k, k ∈ Core.bucket_order → is_Some (categories !! k))
    by (intros; by apply core_key_present).
  unfold Core.categorize_word, Core.bucket_of.
  destruct (decide (pos = "PRON")); [apply append_Ok, Hkey; set_solver|].
  destruct (decide (pos ∈ ["NOUN"; "PROPN"])).
  { rewrite (getitem_Ok categories "subjects"), (getitem_Ok categories "verbs")
      by (apply Hkey; set_solver).
    simpl. repeat case_decide; try tauto; apply append_Ok, Hkey; set_solver. }
  repeat (case_decide; [apply append_Ok, Hkey; set_solver|]).
  destruct (Core._is_time_expression _); apply append_Ok, Hkey; set_solver.
Qed.

Lemma core_categorize_words toks :
  ∃ categories,
    Core._categorize_words toks = Ok categories
    ∧ dom categories = Core.bucket_keys
    ∧ ∀ k, categories !!! k = members k toks (Core.bucket_labels toks).
Proof.
  destruct (for_each_place Core.bucket_of Core.categorize_word Core.bucket_keys
              core_bucket_of_key core_categorize_word_place
              toks Core.empty_categories core_empty_dom)
    as (c & Hrun & Hdom & Hget).
  exists c. split_and!; [done..|]. intros k.
  by rewrite Hget, core_empty_lookup.
Qed.

Lemma core_reorder (categories : gmap string (list token)) :
  dom categories = Core.bucket_keys →
  Core._reorder_for_sign_language categories
  = Ok (concat (map (λ k, categories !!! k) Core.bucket_order)).
Proof.
  intros Hdom. unfold Core._reorder_for_sign_language.
  repeat (rewrite extend_Ok by (apply (core_key_present _ _ Hdom);
                                unfold Core.bucket_order; set_solver); simpl).
  by rewrite !app_nil_r, <- !app_assoc.
Qed.

Lemma core_create_analysis toks (categories : gmap string (list token)) seq :
  dom categories = Core.bucket_keys →
  ∃ a, Core._create_analysis toks categories seq = Ok a
       ∧ Core.word_count a = length toks
       ∧ Core.reordered_count a = length seq
       ∧ Core.structure_changes a =
           {| Core.subjects := length (categories !!! "subjects");
              Core.verbs := length (categories !!! "verbs");
              Core.objects := length (categories !!! "objects");
              Core.adjectives := length (categories !!! "adjectives");
              Core.time_expressions := length (categories !!! "time_expressions");
              Core.others := length (categories !!! "others") |}.
Proof.
  intros Hdom. unfold Core._create_analysis.
  repeat (rewrite getitem_Ok by (apply (core_key_present _ _ Hdom);
                                 unfold Core.bucket_order; set_solver); simpl).
  eexists. split_and!; reflexivity.
Qed.

(** The entry of the detail report for the word at position [i]. *)
Lemma core_word_detail_step signs acc i word pos :
  Core.word_detail signs acc (i, (word, pos))
  = Ok (acc ++ [
      {| Core.index := i + 1;
         Core.original_word := word;
         Core.pos_tag := pos;
         Core.has_dictionary_definition := bool_decide (is_Some (signs !! normalized word));
         Core.dictionary_action :=
           Some (default (upper word +:+ "[" +:+ pos +:+ "]") (signs !! normalized word));
         Core.in_dictionary := bool_decide (is_Some (signs !! normalized word)) |} ]).
Proof.
  unfold Core.word_detail, normalized.
  destruct (signs !! replace " " "_" (lower word)) as [g|] eqn:Hg.
  - rewrite decide_True by eauto. by rewrite (getitem_Some _ _ _ Hg).
  - by rewrite decide_False by (by intros [? ?]).
Qed.

Lemma core_word_details self toks :
  ∃ details,
    Core._create_word_details self toks = Ok details
    ∧ length details = length toks
    ∧ ∀ i word pos, toks !! i = Some (word, pos) →
        details !! i = Some
          {| Core.index := i + 1;
             Core.original_word := word;
             Core.pos_tag := pos;
             Core.has_dictionary_definition :=
               bool_decide (is_Some (Core.basic_signs self !! normalized word));
             Core.dictionary_action :=
               Some (default (upper word +:+ "[" +:+ pos +:+ "]")
                             (Core.basic_signs self !! normalized word));
             Core.in_dictionary :=
               bool_decide (is_Some (Core.basic_signs self !! normalized word)) |}.
Proof.
  set (signs := Core.basic_signs self).
  set (entry := λ item : nat * token,
    {| Core.index := item.1 + 1;
       Core.original_word := item.2.1;
       Core.pos_tag := item.2.2;
       Core.has_dictionary_definition := bool_decide (is_Some (signs !! normalized item.2.1));
       Core.dictionary_action :=
         Some (default (upper item.2.1 +:+ "[" +:+ item.2.2 +:+ "]")
                       (signs !! normalized item.2.1));
       Core.in_dictionary := bool_decide (is_Some (signs !! normalized item.2.1)) |}).
  exists (entry <$> enumerate toks). split_and!.
  - unfold Core._create_word_details.
    rewrite (for_each_snoc _ entry); [done|].
    intros acc [i [word pos]]. apply core_word_detail_step.
  - unfold enumerate. by rewrite length_fmap, length_imap.
  - intros i word pos Hi. unfold enumerate.
    rewrite list_lookup_fmap, list_lookup_imap.
    by rewrite Hi.
Qed.

Lemma core_convert self toks :
  Core.is_initialized self = true →
  ∃ categories details a,
    Core._categorize_words toks = Ok categories
    ∧ Core._create_word_details self toks = Ok details
    ∧ Core._create_analysis toks categories
        (concat (map (λ k, categories !!! k) Core.bucket_order)).*1 = Ok a
    ∧ Core.convert_to_sign_language self toks
      = Ok (Core.Converted
          {| Core.original_sentence := join " " (toks.*1);
             Core.sign_language_sequence :=
               (concat (map (λ k, categories !!! k) Core.bucket_order)).*1;
             Core.structure_analysis := a;
             Core.pos_analysis := categories;
             Core.word_details := details;
             Core.reorder_strategy := "Vietnamese SVO → Sign Language SOV" |}).
Proof.
  intros Hinit.
  destruct (core_categorize_words toks) as (c & Hc & Hdom & _).
  destruct (core_word_details self toks) as (details & Hd & _).
  destruct (core_create_analysis toks c
              (concat (map (λ k, c !!! k) Core.bucket_order)).*1 Hdom)
    as (a & Ha & _).
  exists c, details, a. split_and!; [done..|].
  unfold Core.convert_to_sign_language.
  rewrite Hinit, Hc. cbn [negb]. rewrite bind_Ok, (core_reorder c Hdom), bind_Ok.
  by rewrite Hd, bind_Ok, Ha.
Qed.

End core.

(** ** The first converter *)

Section legacy.
Context `{StrOps}.

Lemma legacy_bucket_of_key categories tok :
  Legacy.bucket_of categories tok ∈ Legacy.bucket_keys.
Proof.
  destruct tok as [word pos]. unfold Legacy.bucket_of, Legacy.bucket_keys.
  repeat case_decide; set_solver.
Qed.

Lemma legacy_empty_dom : dom Legacy.empty_categories = Legacy.bucket_keys.
Proof. by vm_compute. Qed.

Lemma legacy_empty_lookup k : Legacy.empty_categories !!! k = [].
Proof.
  apply (dict_literal_nil_values
    ["subjects"; "objects"; "verbs"; "adjectives"; "adverbs"; "numbers";
     "pronouns"; "prepositions"; "others"]).
Qed.

Lemma legacy_key_present (categories : gmap string (list token)) k :
  dom categories = Legacy.bucket_keys → k ∈ Legacy.bucket_order →
  is_Some (categories !! k).
Proof.
  intros Hdom Hk. apply (in_dom_is_Some _ _ _ Hdom).
  unfold Legacy.bucket_order in Hk. unfold Legacy.bucket_keys. set_solver.
Qed.

Lemma legacy_categorize_word_place categories tok :
  dom categories = Legacy.bucket_keys →
  Legacy.categorize_word categories tok
  = Ok (place categories (Legacy.bucket_of categories tok) tok).
Proof.
  intros Hdom. destruct tok as [word pos].
  assert (Hkey : ∀ k, k ∈ Legacy.bucket_order → is_Some (categories !! k))
    by (intros; by apply legacy_key_present).
  unfold Legacy.categorize_word, Legacy.bucket_of.
  destruct (decide (pos = "PRON")); [apply append_Ok, Hkey; set_solver|].
  destruct (decide (pos ∈ ["NOUN"; "PROPN"])).
  { rewrite (getitem_Ok categories "subjects"), (getitem_Ok categories "verbs")
      by (apply Hkey; set_solver).
    simpl. repeat case_decide; try tauto; apply append_Ok, Hkey; set_solver. }
  repeat (case_decide; [apply append_Ok, Hkey; set_solver|]).
  apply append_Ok, Hkey; set_solver.
Qed.

Lemma legacy_categorize_words toks :
  ∃ categories,
    Legacy._categorize_words toks = Ok categories
    ∧ dom categories = Legacy.bucket_keys
    ∧ ∀ k, categories !!! k = members k toks (Legacy.bucket_labels toks).
Proof.
  destruct (for_each_place Legacy.bucket_of Legacy.categorize_word Legacy.bucket_keys
              legacy_bucket_of_key legacy_categorize_word_place
              toks Legacy.empty_categories legacy_empty_dom)
    as (c & Hrun & Hdom & Hget).
  exists c. split_and!; [done..|]. intros k.
  by rewrite Hget, legacy_empty_lookup.
Qed.

Lemma legacy_reorder (categories : gmap string (list token)) :
  dom categories = Legacy.bucket_keys →
  Legacy._reorder_for_sign_language categories
  = Ok (concat (map (λ k, categories !!! k) Legacy.bucket_order)).
Proof.
  intros Hdom. unfold Legacy._reorder_for_sign_language.
  repeat (rewrite extend_Ok by (apply (legacy_key_present _ _ Hdom);
                                unfold Legacy.bucket_order; set_solver); simpl).
  by rewrite !app_nil_r, <- !app_assoc.
Qed.

Lemma legacy_create_analysis self toks (categories : gmap string (list token)) seq :
  dom categories = Legacy.bucket_keys →
  ∃ a, Legacy._create_analysis self toks categories seq = Ok a
       ∧ Legacy.word_count a = length toks
       ∧ Legacy.sign_count a = length seq.
Proof.
  intros Hdom. unfold Legacy._create_analysis.
  repeat (rewrite getitem_Ok by (apply (legacy_key_present _ _ Hdom);
                                 unfold Legacy.bucket_order; set_solver); simpl).
  eexists. split_and!; reflexivity.
Qed.

Lemma legacy_convert_word signs acc word pos :
  Legacy.convert_word signs acc (word, pos)
  = Ok (acc ++ [default (upper word) (signs !! normalized word)]).
Proof.
  unfold Legacy.convert_word, normalized.
  destruct (signs !! replace " " "_" (lower word)) as [g|] eqn:Hg.
  - rewrite decide_True by eauto. by rewrite (getitem_Some _ _ _ Hg).
  - by rewrite decide_False by (by intros [? ?]).
Qed.

Lemma legacy_convert_vocabulary self toks :
  Legacy._convert_vocabulary self toks
  = Ok ((λ tok, default (upper tok.1) (Legacy.sign_dictionary self !! normalized tok.1))
        <$> toks).
Proof.
  unfold Legacy._convert_vocabulary.
  rewrite (for_each_snoc _
    (λ tok, default (upper tok.1) (Legacy.sign_dictionary self !! normalized tok.1)));
    [done|].
  intros acc [word pos]. apply legacy_convert_word.
Qed.

Lemma legacy_convert self toks :
  Legacy.is_initialized self = true →
  ∃ categories a,
    Legacy._categorize_words toks = Ok categories
    ∧ Legacy.convert_to_sign_language self toks
      = Ok (Legacy.Converted
          {| Legacy.original_sentence := join " " (toks.*1);
             Legacy.sign_language_sequence :=
               (λ tok, default (upper tok.1)
                         (Legacy.sign_dictionary self !! normalized tok.1))
               <$> concat (map (λ k, categories !!! k) Legacy.bucket_order);
             Legacy.structure_analysis := a;
             Legacy.pos_analysis := categories |}).
Proof.
  intros Hinit.
  destruct (legacy_categorize_words toks) as (c & Hc & Hdom & _).
  destruct (legacy_create_analysis self toks c
    ((λ tok, default (upper tok.1) (Legacy.sign_dictionary self !! normalized tok.1))
       <$> concat (map (λ k, c !!! k) Legacy.bucket_order)) Hdom) as (a & Ha & _).
  exists c, a. split; [done|].
  unfold Legacy.convert_to_sign_language.
  rewrite Hinit, Hc. cbn [negb]. rewrite bind_Ok, (legacy_reorder c Hdom), bind_Ok.
  by rewrite legacy_convert_vocabulary, bind_Ok, Ha.
Qed.

End legacy.

(** ** Claims on the classification pass and the reordering policy *)

Lemma members_absent k toks labels : k ∉ labels → members k toks labels = [].
Proof.
  revert labels. induction toks as [|tok toks IH]; intros [|l labels] Hk; try done.
  apply not_elem_of_cons in Hk as [Hne Hk].
  rewrite members_cons, decide_False by done. by apply IH.
Qed.

Section order_claims.
Context `{StrOps}.

(** C2.  The gloss sequence is the concatenation of the buckets in the
    fixed order time, pronoun, subject, adjective, number, object, verb,
    adverb, preposition, other, where every bucket holds, in input order,
    the tokens of the sentence filed under it; an empty bucket
    contributes nothing.  The time-aware converter emits the surface
    words of that concatenation, the first converter (which has no time
    bucket) their glosses. *)
Theorem gloss_sequence_follows_bucket_order
    (core : Core.converter) (legacy : Legacy.converter) (toks : list token) :
  Core.is_initialized core = true →
  Legacy.is_initialized legacy = true →
  let order :=
    [ "time_expressions"; "pronouns"; "subjects"; "adjectives"; "numbers";
      "objects"; "verbs"; "adverbs"; "prepositions"; "others" ] in
  (∃ r,
      Core.convert_to_sign_language core toks = Ok (Core.Converted r)
      ∧ (∀ k, Core.pos_analysis r !!! k = members k toks (Core.bucket_labels toks))
      ∧ (∀ k, Core.pos_analysis r !!! k `sublist_of` toks)
      ∧ Core.sign_language_sequence r
        = (concat (map (λ k, Core.pos_analysis r !!! k) order)).*1)
  ∧ (∃ r,
      Legacy.convert_to_sign_language legacy toks = Ok (Legacy.Converted r)
      ∧ (∀ k, Legacy.pos_analysis r !!! k = members k toks (Legacy.bucket_labels toks))
      ∧ (∀ k, Legacy.pos_analysis r !!! k `sublist_of` toks)
      ∧ Legacy.sign_language_sequence r
        = (λ tok, default (upper tok.1)
                    (Legacy.sign_dictionary legacy !! normalized tok.1))
          <$> concat (map (λ k, Legacy.pos_analysis r !!! k) order)).
Proof.
  intros Hcore Hlegacy order. split.
  - destruct (core_convert core toks Hcore) as (c & details & a & Hc & _ & _ & Hconv).
    destruct (core_categorize_words toks) as (c' & Hc' & _ & Hget).
    assert (c' = c) by congruence. subst c'.
    eexists. split; [exact Hconv|]. simpl. split_and!; [done| |done].
    intros k. rewrite Hget. apply members_sublist.
  - destruct (legacy_convert legacy toks Hlegacy) as (c & a & Hc & Hconv).
    destruct (legacy_categorize_words toks) as (c' & Hc' & _ & Hget).
    assert (c' = c) by congruence. subst c'.
    eexists. split; [exact Hconv|]. simpl. split_and!; [done| |].
    + intros k. rewrite Hget. apply members_sublist.
    + f_equal. rewrite (Hget "time_expressions"), members_absent; [done|].
      intros Hin.
      pose proof (labels_from_keys Legacy.bucket_of Legacy.bucket_keys
                    legacy_bucket_of_key Legacy.empty_categories toks) as Hall.
      rewrite Forall_forall in Hall. apply Hall in Hin.
      unfold Legacy.bucket_keys in Hin. set_solver.
Qed.

(** C3.  Every token of the sentence, the empty one included, is filed
    under exactly one bucket: the buckets taken together hold the tokens
    of the input, each once; their sizes add up to the length of the
    input; and the gloss sequence has one position for every input token,
    so it is as long as the input. *)
Theorem classification_partitions_input
    (core : Core.converter) (legacy : Legacy.converter) (toks : list token) :
  Core.is_initialized core = true →
  Legacy.is_initialized legacy = true →
  (∃ r,
      Core.convert_to_sign_language core toks = Ok (Core.Converted r)
      ∧ Core._categorize_words toks = Ok (Core.pos_analysis r)
      ∧ dom (Core.pos_analysis r) =
          {[ "time_expressions"; "pronouns"; "subjects"; "adjectives"; "numbers";
             "objects"; "verbs"; "adverbs"; "prepositions"; "others" ]}
      ∧ Core.pos_analysis r !!! "time_expressions" ++ Core.pos_analysis r !!! "pronouns"
          ++ Core.pos_analysis r !!! "subjects" ++ Core.pos_analysis r !!! "adjectives"
          ++ Core.pos_analysis r !!! "numbers" ++ Core.pos_analysis r !!! "objects"
          ++ Core.pos_analysis r !!! "verbs" ++ Core.pos_analysis r !!! "adverbs"
          ++ Core.pos_analysis r !!! "prepositions" ++ Core.pos_analysis r !!! "others"
        ≡ₚ toks
      ∧ length (Core.pos_analysis r !!! "time_expressions")
          + length (Core.pos_analysis r !!! "pronouns")
          + length (Core.pos_analysis r !!! "subjects")
          + length (Core.pos_analysis r !!! "adjectives")
          + length (Core.pos_analysis r !!! "numbers")
          + length (Core.pos_analysis r !!! "objects")
          + length (Core.pos_analysis r !!! "verbs")
          + length (Core.pos_analysis r !!! "adverbs")
          + length (Core.pos_analysis r !!! "prepositions")
          + length (Core.pos_analysis r !!! "others")
        = length toks
      ∧ Core.sign_language_sequence r ≡ₚ toks.*1
      ∧ length (Core.sign_language_sequence r) = length toks)
  ∧ (∃ r,
      Legacy.convert_to_sign_language legacy toks = Ok (Legacy.Converted r)
      ∧ Legacy._categorize_words toks = Ok (Legacy.pos_analysis r)
      ∧ dom (Legacy.pos_analysis r) =
          {[ "pronouns"; "subjects"; "adjectives"; "numbers";
             "objects"; "verbs"; "adverbs"; "prepositions"; "others" ]}
      ∧ Legacy.pos_analysis r !!! "pronouns"
          ++ Legacy.pos_analysis r !!! "subjects" ++ Legacy.pos_analysis r !!! "adjectives"
          ++ Legacy.pos_analysis r !!! "numbers" ++ Legacy.pos_analysis r !!! "objects"
          ++ Legacy.pos_analysis r !!! "verbs" ++ Legacy.pos_analysis r !!! "adverbs"
          ++ Legacy.pos_analysis r !!! "prepositions" ++ Legacy.pos_analysis r !!! "others"
        ≡ₚ toks
      ∧ length (Legacy.pos_analysis r !!! "pronouns")
          + length (Legacy.pos_analysis r !!! "subjects")
          + length (Legacy.pos_analysis r !!! "adjectives")
          + length (Legacy.pos_analysis r !!! "numbers")
          + length (Legacy.pos_analysis r !!! "objects")
          + length (Legacy.pos_analysis r !!! "verbs")
          + length (Legacy.pos_analysis r !!! "adverbs")
          + length (Legacy.pos_analysis r !!! "prepositions")
          + length (Legacy.pos_analysis r !!! "others")
        = length toks
      ∧ Legacy.sign_language_sequence r
        ≡ₚ (λ tok, default (upper tok.1)
                     (Legacy.sign_dictionary legacy !! normalized tok.1)) <$> toks
      ∧ length (Legacy.sign_language_sequence r) = length toks).
Proof.
  intros Hcore Hlegacy. split.
  - destruct (core_convert core toks Hcore) as (c & details & a & Hc & _ & _ & Hconv).
    destruct (core_categorize_words toks) as (c' & Hc' & Hdom & Hget).
    assert (c' = c) by congruence. subst c'.
    assert (Hperm : concat (map (λ k, c !!! k) Core.bucket_order) ≡ₚ toks).
    { erewrite map_ext; [|intros k; apply Hget].
      apply members_partition.
      - unfold Core.bucket_order. apply (bool_decide_unpack _). by vm_compute.
      - apply labels_from_length.
      - eapply Forall_impl; [apply (labels_from_keys _ _ core_bucket_of_key)|].
        intros k Hk. unfold Core.bucket_keys in Hk. unfold Core.bucket_order.
        set_solver. }
    eexists. split; [exact Hconv|]. simpl.
    unfold Core.bucket_order in Hperm. simpl in Hperm. rewrite app_nil_r in Hperm.
    split_and!.
    + done.
    + rewrite Hdom. unfold Core.bucket_keys. set_solver.
    + done.
    + apply Permutation_length in Hperm. rewrite !length_app in Hperm. lia.
    + rewrite app_nil_r. by rewrite Hperm.
    + rewrite app_nil_r, length_fmap. by rewrite Hperm.
  - destruct (legacy_convert legacy toks Hlegacy) as (c & a & Hc & Hconv).
    destruct (legacy_categorize_words toks) as (c' & Hc' & Hdom & Hget).
    assert (c' = c) by congruence. subst c'.
    assert (Hperm : concat (map (λ k, c !!! k) Legacy.bucket_order) ≡ₚ toks).
    { erewrite map_ext; [|intros k; apply Hget].
      apply members_partition.
      - unfold Legacy.bucket_order. apply (bool_decide_unpack _). by vm_compute.
      - apply labels_from_length.
      - eapply Forall_impl; [apply (labels_from_keys _ _ legacy_bucket_of_key)|].
        intros k Hk. unfold Legacy.bucket_keys in Hk. unfold Legacy.bucket_order.
        set_solver. }
    eexists. split; [exact Hconv|]. simpl.
    unfold Legacy.bucket_order in Hperm. simpl in Hperm. rewrite app_nil_r in Hperm.
    split_and!.
    + done.
    + rewrite Hdom. unfold Legacy.bucket_keys. set_solver.
    + done.
    + apply Permutation_length in Hperm. rewrite !length_app in Hperm. lia.
    + rewrite app_nil_r. by rewrite Hperm.
    + rewrite app_nil_r, length_fmap. by rewrite Hperm.
Qed.

End order_claims.

Lemma gloss_sequence_follows_bucket_order_witness :
  let core := @Core.init ascii_ops NotFound in
  let legacy := @Legacy.init ascii_ops (Text ["toi = TOI"]) in
  let toks := [("Toi", "PRON"); ("an", "VERB"); ("com", "NOUN")] in
  Core.is_initialized core = true
  ∧ Legacy.is_initialized legacy = true
  ∧ (∃ r, @Core.convert_to_sign_language ascii_ops core toks = Ok (Core.Converted r)
          ∧ Core.sign_language_sequence r = ["Toi"; "com"; "an"])
  ∧ (∃ r, @Legacy.convert_to_sign_language ascii_ops legacy toks = Ok (Legacy.Converted r)
          ∧ Legacy.sign_language_sequence r = ["TOI"; "COM"; "AN"]).
Proof.
  intros core legacy toks.
  split; [reflexivity|]. split; [reflexivity|].
  destruct (@gloss_sequence_follows_bucket_order ascii_ops core legacy toks
              eq_refl eq_refl) as [(r & Hr & Hb & _ & Hseq) (r' & Hr' & Hb' & _ & Hseq')].
  split.
  - exists r. split; [exact Hr|]. rewrite Hseq. simpl. rewrite !Hb. reflexivity.
  - exists r'. split; [exact Hr'|]. rewrite Hseq'. simpl. rewrite !Hb'. reflexivity.
Defined.


Lemma classification_partitions_input_witness :
  let core := @Core.init ascii_ops NotFound in
  let legacy := @Legacy.init ascii_ops NotFound in
  let toks := [("Ha Noi", "PROPN"); ("dep", "ADJ"); ("sang", "X")] in
  Core.is_initialized core = true
  ∧ Legacy.is_initialized legacy = true
  ∧ (∃ r, @Core.convert_to_sign_language ascii_ops core toks = Ok (Core.Converted r)
          ∧ length (Core.sign_language_sequence r) = 3)
  ∧ (∃ r, @Legacy.convert_to_sign_language ascii_ops legacy toks = Ok (Legacy.Converted r)
          ∧ length (Legacy.sign_language_sequence r) = 3).
Proof.
  intros core legacy toks.
  split; [reflexivity|]. split; [reflexivity|].
  destruct (@classification_partitions_input ascii_ops core legacy toks
              eq_refl eq_refl)
    as [(r & Hr & _ & _ & _ & _ & _ & Hlen) (r' & Hr' & _ & _ & _ & _ & _ & Hlen')].
  split.
  - exists r. split; [exact Hr | exact Hlen].
  - exists r'. split; [exact Hr' | exact Hlen'].
Defined.

Section noun_claims.
Context `{StrOps}.

Lemma noun_bucket_core (c : gmap string (list token)) word pos :
  pos ∈ ["NOUN"; "PROPN"] →
  Core.bucket_of c (word, pos)
  = if decide (c !!! "subjects" = [] ∧ c !!! "verbs" = [])
    then "subjects" else "objects".
Proof.
  intros Hpos. unfold Core.bucket_of.
  rewrite decide_False by (intros ->; set_solver).
  rewrite decide_True by done.
  destruct (c !!! "subjects"), (c !!! "verbs"); simpl;
    repeat case_decide; naive_solver.
Qed.

Lemma noun_bucket_legacy (c : gmap string (list token)) word pos :
  pos ∈ ["NOUN"; "PROPN"] →
  Legacy.bucket_of c (word, pos)
  = if decide (c !!! "subjects" = [] ∧ c !!! "verbs" = [])
    then "subjects" else "objects".
Proof.
  intros Hpos. unfold Legacy.bucket_of.
  rewrite decide_False by (intros ->; set_solver).
  rewrite decide_True by done.
  destruct (c !!! "subjects"), (c !!! "verbs"); simpl;
    repeat case_decide; naive_solver.
Qed.

(** C4.  When the pass reaches a token tagged NOUN or PROPN, with [c] the
    buckets filled from the tokens before it, the token is appended to
    the subject bucket if the subject bucket and the verb bucket of [c]
    are both empty, and to the object bucket otherwise.  Hence, of two
    such tokens that make up a sentence without a verb, the first is the
    subject and the second an object.  Both converters agree on this. *)
Theorem noun_is_subject_iff_no_subject_and_no_verb
    (pre : list token) (word pos word2 pos2 : string) :
  pos ∈ ["NOUN"; "PROPN"] →
  pos2 ∈ ["NOUN"; "PROPN"] →
  (∃ c, Core._categorize_words pre = Ok c
        ∧ Core._categorize_words (pre ++ [(word, pos)])
          = Ok (place c (if decide (c !!! "subjects" = [] ∧ c !!! "verbs" = [])
                         then "subjects" else "objects") (word, pos)))
  ∧ (∃ c, Legacy._categorize_words pre = Ok c
        ∧ Legacy._categorize_words (pre ++ [(word, pos)])
          = Ok (place c (if decide (c !!! "subjects" = [] ∧ c !!! "verbs" = [])
                         then "subjects" else "objects") (word, pos)))
  ∧ (∃ c, Core._categorize_words [(word, pos); (word2, pos2)] = Ok c
        ∧ c !!! "subjects" = [(word, pos)]
        ∧ c !!! "objects" = [(word2, pos2)]
        ∧ c !!! "verbs" = [])
  ∧ (∃ c, Legacy._categorize_words [(word, pos); (word2, pos2)] = Ok c
        ∧ c !!! "subjects" = [(word, pos)]
        ∧ c !!! "objects" = [(word2, pos2)]
        ∧ c !!! "verbs" = []).
Proof.
  intros Hpos Hpos2. split_and!.
  - destruct (core_categorize_words pre) as (c & Hc & Hdom & _).
    exists c. split; [done|]. unfold Core._categorize_words in *.
    rewrite for_each_app, Hc, bind_Ok.
    apply for_each_one. rewrite (core_categorize_word_place c _ Hdom).
    by rewrite noun_bucket_core.
  - destruct (legacy_categorize_words pre) as (c & Hc & Hdom & _).
    exists c. split; [done|]. unfold Legacy._categorize_words in *.
    rewrite for_each_app, Hc, bind_Ok.
    apply for_each_one. rewrite (legacy_categorize_word_place c _ Hdom).
    by rewrite noun_bucket_legacy.
  - apply list_elem_of_In in Hpos, Hpos2. simpl in Hpos, Hpos2.
    destruct Hpos as [<-|[<-|[]]], Hpos2 as [<-|[<-|[]]];
      eexists; (split; [reflexivity|]); by vm_compute.
  - apply list_elem_of_In in Hpos, Hpos2. simpl in Hpos, Hpos2.
    destruct Hpos as [<-|[<-|[]]], Hpos2 as [<-|[<-|[]]];
      eexists; (split; [reflexivity|]); by vm_compute.
Qed.

End noun_claims.

Lemma noun_is_subject_iff_no_subject_and_no_verb_witness :
  "PROPN" ∈ ["NOUN"; "PROPN"]
  ∧ "PROPN" ∈ ["NOUN"; "PROPN"]
  ∧ ∃ c, @Core._categorize_words ascii_ops [("Ha Noi", "PROPN"); ("Viet Nam", "PROPN")]
         = Ok c
         ∧ c !!! "subjects" = [("Ha Noi", "PROPN")]
         ∧ c !!! "objects" = [("Viet Nam", "PROPN")]
         ∧ c !!! "verbs" = [].
Proof.
  assert (Hpropn : "PROPN" ∈ ["NOUN"; "PROPN"]) by (right; left).
  split; [exact Hpropn|]. split; [exact Hpropn|].
  exact (proj1 (proj2 (proj2
    (@noun_is_subject_iff_no_subject_and_no_verb ascii_ops
       [] "Ha Noi" "PROPN" "Viet Nam" "PROPN" Hpropn Hpropn)))).
Defined.

(** ** Claims on what decides the bucket of a token *)

Section bucket_rule.
Context `{StrOps}.

Lemma core_bucket_of_rule (c : gmap string (list token)) (b : bool) word pos :
  (b = false ↔ c !!! "subjects" = [] ∧ c !!! "verbs" = []) →
  Core.bucket_of c (word, pos)
  = bucket_rule pos (Core._is_time_expression (lower word)) b.
Proof.
  intros Hb. unfold Core.bucket_of, bucket_rule.
  destruct (decide (pos = "PRON")); [done|].
  destruct (decide (pos ∈ ["NOUN"; "PROPN"])); [|done].
  destruct (c !!! "subjects"), (c !!! "verbs"), b; simpl;
    repeat case_decide; naive_solver.
Qed.

Lemma core_noun_or_verb_step (c : gmap string (list token)) (b : bool) tok :
  (b = false ↔ c !!! "subjects" = [] ∧ c !!! "verbs" = []) →
  (b || noun_or_verb tok = false ↔
     place c (Core.bucket_of c tok) tok !!! "subjects" = []
     ∧ place c (Core.bucket_of c tok) tok !!! "verbs" = []).
Proof.
  intros Hb. destruct tok as [word pos].
  rewrite (core_bucket_of_rule c b word pos Hb), !place_lookup_total.
  unfold bucket_rule, noun_or_verb. simpl.
  destruct (decide (pos = "PRON")) as [->|].
  { rewrite orb_false_r. by rewrite !decide_False by done. }
  destruct (decide (pos ∈ ["NOUN"; "PROPN"])) as [Hn|Hn].
  { rewrite bool_decide_eq_true_2 by set_solver. rewrite orb_true_r.
    destruct b; repeat case_decide; try done;
      split; try done; intros [Hs Hv]; try (by destruct (c !!! "subjects"));
      naive_solver. }
  destruct (decide (pos = "VERB")) as [->|].
  { rewrite bool_decide_eq_true_2 by set_solver. rewrite orb_true_r.
    rewrite decide_False, decide_True by done.
    split; [done|]. intros [_ Hv]. by destruct (c !!! "verbs"). }
  rewrite bool_decide_eq_false_2 by set_solver. rewrite orb_false_r.
  destruct (decide (pos = "ADJ")); [by rewrite !decide_False by done|].
  destruct (decide (pos = "ADV")); [by rewrite !decide_False by done|].
  destruct (decide (pos = "NUM")); [by rewrite !decide_False by done|].
  destruct (decide (pos = "ADP")); [by rewrite !decide_False by done|].
  destruct (Core._is_time_expression _); by rewrite !decide_False by done.
Qed.

Lemma core_labels_rule (c : gmap string (list token)) (b : bool) toks i word pos :
  (b = false ↔ c !!! "subjects" = [] ∧ c !!! "verbs" = []) →
  toks !! i = Some (word, pos) →
  labels_from Core.bucket_of c toks !! i
  = Some (bucket_rule pos (Core._is_time_expression (lower word))
            (b || existsb noun_or_verb (take i toks))).
Proof.
  revert c b i. induction toks as [|tok toks IH]; intros c b [|i] Hb Hi; try done.
  - simpl in *. injection Hi as ->. rewrite orb_false_r.
    by rewrite (core_bucket_of_rule c b).
  - simpl in *.
    rewrite (IH _ (b || noun_or_verb tok) i (core_noun_or_verb_step c b tok Hb) Hi).
    by rewrite orb_assoc.
Qed.

(** C5, as amended.  The bucket of a token is a total function of its
    tag, of whether its lowercased surface word is a time expression,
    and of whether a token tagged NOUN, PROPN or VERB comes before it in
    the sentence: [bucket_rule] computes the key of the bucket that holds
    the token after [_categorize_words]. *)
Theorem bucket_decided_by_tag_word_and_earlier_nouns_verbs
    (toks : list token) (i : nat) (word pos : string) :
  toks !! i = Some (word, pos) →
  let k := bucket_rule pos (Core._is_time_expression (lower word))
             (existsb noun_or_verb (take i toks)) in
  Core.bucket_labels toks !! i = Some k
  ∧ ∃ c, Core._categorize_words toks = Ok c
         ∧ (word, pos) ∈ c !!! k
         ∧ ∀ k', c !!! k' = members k' toks (Core.bucket_labels toks).
Proof.
  intros Hi k.
  assert (Hk : Core.bucket_labels toks !! i = Some k).
  { unfold Core.bucket_labels, k.
    rewrite (core_labels_rule Core.empty_categories false toks i word pos); [done| |done].
    by rewrite !core_empty_lookup. }
  split; [done|].
  destruct (core_categorize_words toks) as (c & Hc & _ & Hget).
  exists c. split_and!; [done| |done].
  rewrite Hget. by eapply members_lookup.
Qed.

End bucket_rule.

Lemma bucket_decided_by_tag_word_and_earlier_nouns_verbs_witness :
  let toks := [("sach", "NOUN"); ("but", "NOUN"); ("doc", "VERB")] in
  toks !! 1 = Some ("but", "NOUN")
  ∧ @Core.bucket_labels ascii_ops toks !! 1 = Some "objects".
Proof.
  intros toks. split; [reflexivity|].
  exact (proj1 (@bucket_decided_by_tag_word_and_earlier_nouns_verbs ascii_ops
                  toks 1 "but" "NOUN" eq_refl)).
Defined.

(** C5, as stated, fails: two tokens with the same tag, both before the
    first verb of the sentence, go to different buckets. *)
Lemma same_tag_same_verb_position_different_buckets :
  let toks := [("sach", "NOUN"); ("but", "NOUN"); ("doc", "VERB")] in
  position_relative_to_first_verb toks 0 = BeforeVerb
  ∧ position_relative_to_first_verb toks 1 = BeforeVerb
  ∧ @Core.bucket_labels ascii_ops toks = ["subjects"; "objects"; "verbs"]
  ∧ Legacy.bucket_labels toks = ["subjects"; "objects"; "verbs"]
  ∧ (∃ c, @Core._categorize_words ascii_ops toks = Ok c
          ∧ c !!! "subjects" = [("sach", "NOUN")]
          ∧ c !!! "objects" = [("but", "NOUN")])
  ∧ (∃ c, Legacy._categorize_words toks = Ok c
          ∧ c !!! "subjects" = [("sach", "NOUN")]
          ∧ c !!! "objects" = [("but", "NOUN")]).
Proof.
  intros toks. split_and!; try by vm_compute.
  - eexists. split; [reflexivity|]. by vm_compute.
  - eexists. split; [reflexivity|]. by vm_compute.
Qed.

(** ** Claims on vocabulary substitution and on the conversion request *)

Lemma append_nonempty_neq (s t : string) : t ≠ "" → s +:+ t ≠ s.
Proof.
  intros Ht. induction s as [|c s IH].
  - done.
  - change (String c s +:+ t) with (String c (s +:+ t)). by intros [= Heq].
Qed.

Section substitution_claims.
Context `{StrOps}.

(** C1, as amended.  In the first converter every element of the gloss
    sequence is the gloss stored under the normalized surface word of
    the token at that place of the reordered sentence when the dictionary
    has that key (so a word present under its normalized key yields
    exactly the stored gloss), and the uppercased surface word otherwise.
    The time-aware converter does no substitution in the sequence: it
    emits the surface words of the reordered sentence unchanged. *)
Theorem gloss_sequence_substitutes_in_first_converter_only
    (core : Core.converter) (legacy : Legacy.converter) (toks : list token) :
  Core.is_initialized core = true →
  Legacy.is_initialized legacy = true →
  (∃ r reordered,
      Legacy.convert_to_sign_language legacy toks = Ok (Legacy.Converted r)
      ∧ Legacy._categorize_words toks ≫= Legacy._reorder_for_sign_language
        = Ok reordered
      ∧ length (Legacy.sign_language_sequence r) = length reordered
      ∧ ∀ i word pos, reordered !! i = Some (word, pos) →
          Legacy.sign_language_sequence r !! i
          = Some match Legacy.sign_dictionary legacy !! normalized word with
                 | Some gloss => gloss
                 | None => upper word
                 end)
  ∧ (∃ r reordered,
      Core.convert_to_sign_language core toks = Ok (Core.Converted r)
      ∧ Core._categorize_words toks ≫= Core._reorder_for_sign_language
        = Ok reordered
      ∧ Core.sign_language_sequence r = reordered.*1).
Proof.
  intros Hcore Hlegacy. split.
  - destruct (legacy_convert legacy toks Hlegacy) as (c & a & Hc & Hconv).
    destruct (legacy_categorize_words toks) as (c' & Hc' & Hdom & _).
    assert (c' = c) by congruence. subst c'.
    eexists _, (concat (map (λ k, c !!! k) Legacy.bucket_order)).
    split; [exact Hconv|]. cbn [Legacy.sign_language_sequence].
    rewrite Hc, bind_Ok, (legacy_reorder c Hdom).
    split_and!; [done|by rewrite length_fmap|].
    intros i word pos Hi. rewrite list_lookup_fmap, Hi. simpl.
    by destruct (Legacy.sign_dictionary legacy !! normalized word).
  - destruct (core_convert core toks Hcore) as (c & details & a & Hc & _ & _ & Hconv).
    destruct (core_categorize_words toks) as (c' & Hc' & Hdom & _).
    assert (c' = c) by congruence. subst c'.
    eexists _, (concat (map (λ k, c !!! k) Core.bucket_order)).
    split; [exact Hconv|]. cbn [Core.sign_language_sequence].
    by rewrite Hc, bind_Ok, (core_reorder c Hdom).
Qed.

(** C8, as amended.  The two fallback formats come from different
    converters and are never two fields of one result.  In a result of
    the time-aware converter the detail report carries, for every input
    token and with its position, word and tag, the stored gloss and true
    flags on a hit, and on a miss false flags and the uppercased word
    followed by the tag in brackets, which is never the plain uppercased
    word; the gloss sequence of the same result carries the surface word
    of every reordered token unchanged, hit or miss.  In a result of the
    first converter, which has no detail report, the gloss sequence
    carries the stored gloss on a hit and the plain uppercased surface
    word on a miss. *)
Theorem fallback_formats_come_from_different_converters
    (core : Core.converter) (legacy : Legacy.converter) (toks : list token) :
  Core.is_initialized core = true →
  Legacy.is_initialized legacy = true →
  (∃ r reordered,
      Core.convert_to_sign_language core toks = Ok (Core.Converted r)
      ∧ Core._categorize_words toks ≫= Core._reorder_for_sign_language
        = Ok reordered
      ∧ length (Core.sign_language_sequence r) = length reordered
      ∧ (∀ i word pos, reordered !! i = Some (word, pos) →
           Core.sign_language_sequence r !! i = Some word)
      ∧ length (Core.word_details r) = length toks
      ∧ ∀ i word pos, toks !! i = Some (word, pos) →
          ∃ d, Core.word_details r !! i = Some d
               ∧ Core.index d = i + 1
               ∧ Core.original_word d = word
               ∧ Core.pos_tag d = pos
               ∧ match Core.basic_signs core !! normalized word with
                 | Some gloss =>
                     Core.dictionary_action d = Some gloss
                     ∧ Core.has_dictionary_definition d = true
                     ∧ Core.in_dictionary d = true
                 | None =>
                     Core.dictionary_action d = Some (upper word +:+ "[" +:+ pos +:+ "]")
                     ∧ Core.dictionary_action d ≠ Some (upper word)
                     ∧ Core.has_dictionary_definition d = false
                     ∧ Core.in_dictionary d = false
                 end)
  ∧ (∃ r reordered,
      Legacy.convert_to_sign_language legacy toks = Ok (Legacy.Converted r)
      ∧ Legacy._categorize_words toks ≫= Legacy._reorder_for_sign_language
        = Ok reordered
      ∧ length (Legacy.sign_language_sequence r) = length reordered
      ∧ ∀ i word pos, reordered !! i = Some (word, pos) →
          Legacy.sign_language_sequence r !! i
          = Some match Legacy.sign_dictionary legacy !! normalized word with
                 | Some gloss => gloss
                 | None => upper word
                 end).
Proof.
  intros Hcore Hlegacy. split.
  - destruct (core_convert core toks Hcore) as (c & details & a & Hc & Hd & _ & Hconv).
    destruct (core_categorize_words toks) as (c' & Hc' & Hdom & _).
    assert (c' = c) by congruence. subst c'.
    destruct (core_word_details core toks) as (details' & Hd' & Hlen & Hget).
    assert (details' = details) by congruence. subst details'.
    eexists _, (concat (map (λ k, c !!! k) Core.bucket_order)).
    split; [exact Hconv|].
    cbn [Core.sign_language_sequence Core.word_details].
    rewrite Hc, bind_Ok, (core_reorder c Hdom).
    split_and!; [done|by rewrite length_fmap| |done|].
    + intros i word pos Hi. by rewrite list_lookup_fmap, Hi.
    + intros i word pos Hi.
      eexists. split; [by apply Hget|]. simpl. split_and!; [done..|].
      destruct (Core.basic_signs core !! normalized word) as [gloss|] eqn:Hg; simpl.
      * done.
      * split_and!; [done| |done..].
        intros [= Heq]. by apply append_nonempty_neq in Heq.
  - destruct (legacy_convert legacy toks Hlegacy) as (c & a & Hc & Hconv).
    destruct (legacy_categorize_words toks) as (c' & Hc' & Hdom & _).
    assert (c' = c) by congruence. subst c'.
    eexists _, (concat (map (λ k, c !!! k) Legacy.bucket_order)).
    split; [exact Hconv|]. cbn [Legacy.sign_language_sequence].
    rewrite Hc, bind_Ok, (legacy_reorder c Hdom).
    split_and!; [done|by rewrite length_fmap|].
    intros i word pos Hi. rewrite list_lookup_fmap, Hi. simpl.
    by destruct (Legacy.sign_dictionary legacy !! normalized word).
Qed.

(** C9.  A conversion request never raises.  It returns the error
    dictionary exactly when the converter is not initialized, and a
    conversion result otherwise; classification, reordering, the lookups
    of the detail report and the analysis return for every token
    sequence; and the empty sequence gives an empty gloss sequence, empty
    buckets and zero counts. *)
Theorem conversion_fails_only_when_uninitialized
    (core : Core.converter) (toks : list token) :
  (∃ resp,
      Core.convert_to_sign_language core toks = Ok resp
      ∧ (Core.is_initialized core = false ↔
           resp = Core.Error "Sign Language Converter is not initialized")
      ∧ (Core.is_initialized core = true ↔ ∃ r, resp = Core.Converted r))
  ∧ (∃ categories reordered details analysis,
      Core._categorize_words toks = Ok categories
      ∧ Core._reorder_for_sign_language categories = Ok reordered
      ∧ Core._create_word_details core toks = Ok details
      ∧ Core._create_analysis toks categories (reordered.*1) = Ok analysis)
  ∧ (Core.is_initialized core = true →
      ∃ r,
        Core.convert_to_sign_language core [] = Ok (Core.Converted r)
        ∧ Core.original_sentence r = ""
        ∧ Core.sign_language_sequence r = []
        ∧ Core.word_details r = []
        ∧ (∀ k, Core.pos_analysis r !!! k = [])
        ∧ Core.word_count (Core.structure_analysis r) = 0
        ∧ Core.reordered_count (Core.structure_analysis r) = 0
        ∧ Core.structure_changes (Core.structure_analysis r)
          = {| Core.subjects := 0; Core.verbs := 0; Core.objects := 0;
               Core.adjectives := 0; Core.time_expressions := 0;
               Core.others := 0 |}).
Proof.
  split_and!.
  - destruct (Core.is_initialized core) eqn:Hinit.
    + destruct (core_convert core toks Hinit) as (c & details & a & _ & _ & _ & Hconv).
      eexists. split; [exact Hconv|]. split; [done|]. split; eauto.
    + unfold Core.convert_to_sign_language. rewrite Hinit. simpl.
      eexists. split; [done|]. split; [done|]. split; [done|]. by intros [r ?].
  - destruct (core_categorize_words toks) as (c & Hc & Hdom & _).
    destruct (core_word_details core toks) as (details & Hd & _).
    destruct (core_create_analysis toks c
                (concat (map (λ k, c !!! k) Core.bucket_order)).*1 Hdom)
      as (a & Ha & _).
    exists c, (concat (map (λ k, c !!! k) Core.bucket_order)), details, a.
    split_and!; [done|by apply core_reorder|done..].
  - intros Hinit. unfold Core.convert_to_sign_language. rewrite Hinit.
    eexists. split; [reflexivity|]. simpl.
    split_and!; try done. apply core_empty_lookup.
Qed.

End substitution_claims.

Lemma gloss_sequence_substitutes_in_first_converter_only_witness :
  let core := @Core.init ascii_ops NotFound in
  let legacy := @Legacy.init ascii_ops (Text ["toi = TOI"]) in
  let toks := [("an com", "VERB"); ("Toi", "PRON")] in
  Core.is_initialized core = true
  ∧ Legacy.is_initialized legacy = true
  ∧ ∃ r, @Legacy.convert_to_sign_language ascii_ops legacy toks = Ok (Legacy.Converted r)
         ∧ Legacy.sign_language_sequence r !! 0 = Some "TOI"
         ∧ Legacy.sign_language_sequence r !! 1 = Some "AN COM".
Proof.
  intros core legacy toks.
  split; [reflexivity|]. split; [reflexivity|].
  destruct (@gloss_sequence_substitutes_in_first_converter_only ascii_ops
              core legacy toks eq_refl eq_refl)
    as [(r & reordered & Hr & Hre & _ & Hget) _].
  exists r. split; [exact Hr|].
  assert (reordered = [("Toi", "PRON"); ("an com", "VERB")])
    by (vm_compute in Hre; congruence).
  subst reordered. split.
  - exact (Hget 0 "Toi" "PRON" eq_refl).
  - exact (Hget 1 "an com" "VERB" eq_refl).
Defined.

(** C1, as stated, fails in the time-aware converter: with [toi] in the
    dictionary and [com] not, the sequence holds the surface words, where
    the claim asks for the stored gloss [TOI] and the fallback [COM]. *)
Lemma core_sequence_keeps_surface_words :
  let core := @Core.init ascii_ops (Text ["toi = TOI"]) in
  let toks := [("toi", "PRON"); ("com", "NOUN")] in
  Core.is_initialized core = true
  ∧ Core.basic_signs core !! @normalized ascii_ops "toi" = Some "TOI"
  ∧ Core.basic_signs core !! @normalized ascii_ops "com" = None
  ∧ @upper ascii_ops "com" = "COM"
  ∧ ∃ r, @Core.convert_to_sign_language ascii_ops core toks = Ok (Core.Converted r)
         ∧ Core.sign_language_sequence r = ["toi"; "com"].
Proof.
  intros core toks. split_and!; try by vm_compute.
  eexists. split; [reflexivity|]. by vm_compute.
Qed.

Lemma fallback_formats_come_from_different_converters_witness :
  let core := @Core.init ascii_ops (Text ["toi = TOI"]) in
  let legacy := @Legacy.init ascii_ops (Text ["toi = TOI"]) in
  let toks := [("toi", "PRON"); ("com", "NOUN")] in
  Core.is_initialized core = true
  ∧ Legacy.is_initialized legacy = true
  ∧ (∃ r, @Core.convert_to_sign_language ascii_ops core toks = Ok (Core.Converted r)
          ∧ ∃ d0 d1, Core.word_details r !! 0 = Some d0
                     ∧ Core.dictionary_action d0 = Some "TOI"
                     ∧ Core.in_dictionary d0 = true
                     ∧ Core.word_details r !! 1 = Some d1
                     ∧ Core.dictionary_action d1 = Some "COM[NOUN]"
                     ∧ Core.in_dictionary d1 = false)
  ∧ (∃ r, @Legacy.convert_to_sign_language ascii_ops legacy toks
          = Ok (Legacy.Converted r)
          ∧ Legacy.sign_language_sequence r !! 0 = Some "TOI"
          ∧ Legacy.sign_language_sequence r !! 1 = Some "COM").
Proof.
  intros core legacy toks.
  split; [reflexivity|]. split; [reflexivity|].
  destruct (@fallback_formats_come_from_different_converters ascii_ops
              core legacy toks eq_refl eq_refl)
    as [(r & reordered & Hr & _ & _ & _ & _ & Hdet)
        (r' & reordered' & Hr' & Hre' & _ & Hget')].
  split.
  - exists r. split; [exact Hr|].
    destruct (Hdet 0 "toi" "PRON" eq_refl) as (d0 & Hd0 & _ & _ & _ & Hact0 & _ & Hin0).
    destruct (Hdet 1 "com" "NOUN" eq_refl)
      as (d1 & Hd1 & _ & _ & _ & Hact1 & _ & _ & Hin1).
    exists d0, d1.
    split; [exact Hd0|]. split; [exact Hact0|]. split; [exact Hin0|].
    split; [exact Hd1|]. split; [exact Hact1 | exact Hin1].
  - exists r'. split; [exact Hr'|].
    assert (reordered' = [("toi", "PRON"); ("com", "NOUN")])
      by (vm_compute in Hre'; congruence).
    subst reordered'. split.
    + exact (Hget' 0 "toi" "PRON" eq_refl).
    + exact (Hget' 1 "com" "NOUN" eq_refl).
Defined.

(** C8, as stated, fails: the converter that has a detail report does
    not uppercase a missed word in its gloss sequence.  With [com] not in
    the dictionary its result carries [COM[NOUN]] with a false flag in
    the detail report, and the surface word [com], not [COM], in the
    sequence. *)
Lemma detail_report_converter_keeps_missed_word :
  let core := @Core.init ascii_ops (Text ["toi = TOI"]) in
  let toks := [("com", "NOUN")] in
  Core.is_initialized core = true
  ∧ Core.basic_signs core !! @normalized ascii_ops "com" = None
  ∧ @upper ascii_ops "com" = "COM"
  ∧ ∃ r d, @Core.convert_to_sign_language ascii_ops core toks = Ok (Core.Converted r)
           ∧ Core.word_details r = [d]
           ∧ Core.dictionary_action d = Some "COM[NOUN]"
           ∧ Core.in_dictionary d = false
           ∧ Core.sign_language_sequence r = ["com"]
           ∧ Core.sign_language_sequence r ≠ ["COM"].
Proof.
  intros core toks. split_and!; try by vm_compute.
  eexists _, _. split; [reflexivity|]. by vm_compute.
Qed.

Lemma conversion_fails_only_when_uninitialized_witness :
  let core := @Core.init ascii_ops NotFound in
  Core.is_initialized core = true
  ∧ ∃ r, @Core.convert_to_sign_language ascii_ops core [] = Ok (Core.Converted r)
         ∧ Core.sign_language_sequence r = [].
Proof.
  intros core. split; [reflexivity|].
  destruct (proj2 (proj2 (@conversion_fails_only_when_uninitialized ascii_ops core []))
              eq_refl) as (r & Hr & _ & Hseq & _).
  exists r. split; [exact Hr | exact Hseq].
Defined.

(** ** Claims on the dictionary loader *)



Section loader_claims.
Context `{StrOps}.

Lemma fallback_dictionary_size : size Core._get_fallback_dictionary = 19.
Proof. by vm_compute. Qed.



(** C6, as amended.  When the dictionary file does not exist or reading
    it raises, the time-aware loader returns the built-in seed mapping,
    which has 19 entries, so the store of a converter built from such a
    source is not empty.  A file that is read to its end gives the
    entries found on its lines: when no line yields an entry, the loaded
    mapping is empty. *)
Theorem unavailable_source_loads_seed_mapping (file : dict_file) :
  (∀ lines, file ≠ Text lines) →
  (Core._load_dictionary_from_file file = Core._get_fallback_dictionary
   ∧ size (Core._load_dictionary_from_file file) = 19
   ∧ Core.basic_signs (Core.init file) ≠ ∅)
  ∧ (∀ lines,
       (∀ d line, line ∈ lines → Core.load_line d line = d) →
       Core._load_dictionary_from_file (Text lines) = ∅).
Proof.
  intros Hfile. split.
  - assert (Hseed : Core._load_dictionary_from_file file = Core._get_fallback_dictionary).
    { destruct file as [| |lines]; [done..|]. by destruct (Hfile lines). }
    split_and!; [done|by rewrite Hseed, fallback_dictionary_size|].
    simpl. rewrite Hseed. apply map_size_non_empty_iff.
    by rewrite fallback_dictionary_size.
  - intros lines Hlines. simpl.
    induction lines as [|line lines IH]; simpl; [done|].
    rewrite Hlines by left. apply IH. intros d l Hl. apply Hlines. by right.
Qed.


(** A reload replaces the store by the mapping that a fresh load of the
    file gives, whatever the store held before. *)
Remark reload_replaces_store (self : Legacy.converter) (file : dict_file) :
  Legacy.sign_dictionary (Legacy.reload_dictionary self file)
  = Legacy._load_dictionary_from_file file
  ∧ Legacy.is_initialized (Legacy.reload_dictionary self file)
    = Legacy.is_initialized self.
Proof. done. Qed.

End loader_claims.

Lemma unavailable_source_loads_seed_mapping_witness :
  (∀ lines, ReadError ["toi = TOI"] ≠ Text lines)
  ∧ @Core._load_dictionary_from_file ascii_ops (ReadError ["toi = TOI"])
    = Core._get_fallback_dictionary
  ∧ size (@Core._load_dictionary_from_file ascii_ops (ReadError ["toi = TOI"])) = 19.
Proof.
  assert (Hfile : ∀ lines, ReadError ["toi = TOI"] ≠ Text lines) by (intros; discriminate).
  split; [exact Hfile|].
  destruct (proj1 (@unavailable_source_loads_seed_mapping ascii_ops
                     (ReadError ["toi = TOI"]) Hfile)) as (Hseed & Hsize & _).
  split; [exact Hseed | exact Hsize].
Defined.

(** C6, as stated, fails: a dictionary file that exists and yields no
    entry (no line at all, or only blank lines, comments and malformed
    lines) leaves the store of the time-aware converter empty; the first
    converter has no seed mapping and starts empty when the file is
    missing. *)
Lemma empty_source_loads_empty_mapping :
  @Core._load_dictionary_from_file ascii_ops (Text []) = ∅
  ∧ @Core._load_dictionary_from_file ascii_ops
      (Text ["# dictionary"; ""; "no separator"; " = SIGN"]) = ∅
  ∧ Core.basic_signs (@Core.init ascii_ops (Text [])) = ∅
  ∧ @Legacy._load_dictionary_from_file ascii_ops NotFound = ∅
  ∧ Legacy.sign_dictionary (@Legacy.init ascii_ops NotFound) = ∅.
Proof. split_and!; by vm_compute. Qed.



(** * Further properties of the two converters *)

(** ** Buckets and tags *)

Lemma members_filter (P : token → Prop) `{!∀ tok, Decision (P tok)} k toks labels :
  length labels = length toks →
  (∀ i tok l, toks !! i = Some tok → labels !! i = Some l → (l = k ↔ P tok)) →
  members k toks labels = filter P toks.
Proof.
  revert labels. induction toks as [|tok toks IH]; intros [|l labels] Hlen Hiff; try done.
  rewrite members_cons, filter_cons.
  pose proof (Hiff 0 tok l eq_refl eq_refl) as H0.
  rewrite (IH labels); [|by injection Hlen|].
  - repeat case_decide; naive_solver.
  - intros i tok' l' Hi Hl. by apply (Hiff (S i)).
Qed.

Lemma legacy_bucket_of_rule (c : gmap string (list token)) (b : bool) word pos :
  (b = false ↔ c !!! "subjects" = [] ∧ c !!! "verbs" = []) →
  Legacy.bucket_of c (word, pos) = bucket_rule pos false b.
Proof.
  intros Hb. unfold Legacy.bucket_of, bucket_rule.
  destruct (decide (pos = "PRON")); [done|].
  destruct (decide (pos ∈ ["NOUN"; "PROPN"])); [|done].
  destruct (c !!! "subjects"), (c !!! "verbs"), b; simpl;
    repeat case_decide; naive_solver.
Qed.

Lemma legacy_noun_or_verb_step (c : gmap string (list token)) (b : bool) tok :
  (b = false ↔ c !!! "subjects" = [] ∧ c !!! "verbs" = []) →
  (b || noun_or_verb tok = false ↔
     place c (Legacy.bucket_of c tok) tok !!! "subjects" = []
     ∧ place c (Legacy.bucket_of c tok) tok !!! "verbs" = []).
Proof.
  intros Hb. destruct tok as [word pos].
  rewrite (legacy_bucket_of_rule c b word pos Hb), !place_lookup_total.
  unfold bucket_rule, noun_or_verb. simpl.
  destruct (decide (pos = "PRON")) as [->|].
  { rewrite orb_false_r. by rewrite !decide_False by done. }
  destruct (decide (pos ∈ ["NOUN"; "PROPN"])) as [Hn|Hn].
  { rewrite bool_decide_eq_true_2 by set_solver. rewrite orb_true_r.
    destruct b; repeat case_decide; try done;
      split; try done; intros [Hs Hv]; try (by destruct (c !!! "subjects"));
      naive_solver. }
  destruct (decide (pos = "VERB")) as [->|].
  { rewrite bool_decide_eq_true_2 by set_solver. rewrite orb_true_r.
    rewrite decide_False, decide_True by done.
    split; [done|]. intros [_ Hv]. by destruct (c !!! "verbs"). }
  rewrite bool_decide_eq_false_2 by set_solver. rewrite orb_false_r.
  destruct (decide (pos = "ADJ")); [by rewrite !decide_False by done|].
  destruct (decide (pos = "ADV")); [by rewrite !decide_False by done|].
  destruct (decide (pos = "NUM")); [by rewrite !decide_False by done|].
  destruct (decide (pos = "ADP")); by rewrite !decide_False by done.
Qed.

Lemma legacy_labels_rule (c : gmap string (list token)) (b : bool) toks i word pos :
  (b = false ↔ c !!! "subjects" = [] ∧ c !!! "verbs" = []) →
  toks !! i = Some (word, pos) →
  labels_from Legacy.bucket_of c toks !! i
  = Some (bucket_rule pos false (b || existsb noun_or_verb (take i toks))).
Proof.
  revert c b i. induction toks as [|tok toks IH]; intros c b [|i] Hb Hi; try done.
  - simpl in *. injection Hi as ->. rewrite orb_false_r.
    by rewrite (legacy_bucket_of_rule c b).
  - simpl in *.
    rewrite (IH _ (b || noun_or_verb tok) i (legacy_noun_or_verb_step c b tok Hb) Hi).
    by rewrite orb_assoc.
Qed.

(** Facts about a list of labels that follows [bucket_rule], whatever
    decides which words are time expressions. *)
Section rule_labels.
Context (time : token → bool).

Lemma follows_rule_cons b0 tok toks l labels :
  follows_rule time b0 (tok :: toks) (l :: labels) →
  l = bucket_rule tok.2 (time tok) b0
  ∧ follows_rule time (b0 || noun_or_verb tok) toks labels.
Proof.
  intros [Hlen Hrule]. destruct tok as [word pos]. split.
  - pose proof (Hrule 0 word pos eq_refl) as H0. simpl in H0.
    rewrite orb_false_r in H0. by injection H0.
  - split; [by injection Hlen|]. intros i w p Hi.
    pose proof (Hrule (S i) w p Hi) as HS. simpl in HS.
    by rewrite orb_assoc in HS.
Qed.

Lemma bucket_rule_tag pos t b tag k :
  (tag, k) ∈ [("PRON", "pronouns"); ("VERB", "verbs"); ("ADJ", "adjectives");
              ("ADV", "adverbs"); ("NUM", "numbers"); ("ADP", "prepositions")] →
  bucket_rule pos t b = k ↔ pos = tag.
Proof.
  intros Hin. apply list_elem_of_In in Hin. simpl in Hin. unfold bucket_rule.
  destruct Hin as [[= <- <-]|[[= <- <-]|[[= <- <-]|[[= <- <-]|[[= <- <-]|[[= <- <-]|[]]]]]]];
    repeat case_decide; destruct t, b; split; intros; subst; try done;
    set_solver.
Qed.

Lemma bucket_rule_subjects pos t b :
  bucket_rule pos t b = "subjects" ↔ (pos ∈ ["NOUN"; "PROPN"]) ∧ b = false.
Proof.
  unfold bucket_rule.
  repeat case_decide; destruct t, b; split; try done; try (by intros [? ?]);
    intros [? ?]; subst; set_solver.
Qed.

Lemma bucket_rule_objects pos t b :
  bucket_rule pos t b = "objects" ↔ (pos ∈ ["NOUN"; "PROPN"]) ∧ b = true.
Proof.
  unfold bucket_rule.
  repeat case_decide; destruct t, b; split; try done; try (by intros [? ?]);
    intros [? ?]; subst; set_solver.
Qed.

Lemma bucket_rule_time pos t b :
  bucket_rule pos t b = "time_expressions" ↔
  (pos ∉ ["PRON"; "NOUN"; "PROPN"; "VERB"; "ADJ"; "ADV"; "NUM"; "ADP"]) ∧ t = true.
Proof.
  unfold bucket_rule.
  repeat case_decide; destruct t, b; split; try done; try (by intros [? ?]);
    try (intros [Hn ?]; exfalso; apply Hn; subst; set_solver);
    intros _; (split; [|done]); set_solver.
Qed.

Lemma bucket_rule_others pos t b :
  bucket_rule pos t b = "others" ↔
  (pos ∉ ["PRON"; "NOUN"; "PROPN"; "VERB"; "ADJ"; "ADV"; "NUM"; "ADP"]) ∧ t = false.
Proof.
  unfold bucket_rule.
  repeat case_decide; destruct t, b; split; try done; try (by intros [? ?]);
    try (intros [Hn ?]; exfalso; apply Hn; subst; set_solver);
    intros _; (split; [|done]); set_solver.
Qed.

End rule_labels.

Section rule_members.
Context (time : token → bool).

Lemma follows_rule_tag b0 toks labels tag k :
  follows_rule time b0 toks labels →
  (tag, k) ∈ [("PRON", "pronouns"); ("VERB", "verbs"); ("ADJ", "adjectives");
              ("ADV", "adverbs"); ("NUM", "numbers"); ("ADP", "prepositions")] →
  members k toks labels = filter (λ tok, tok.2 = tag) toks.
Proof.
  intros [Hlen Hrule] Hin. apply members_filter; [done|].
  intros i [word pos] l Hi Hl. rewrite (Hrule i word pos Hi) in Hl.
  injection Hl as <-. by apply bucket_rule_tag.
Qed.

Lemma follows_rule_time b0 toks labels :
  follows_rule time b0 toks labels →
  members "time_expressions" toks labels
  = filter (λ tok, (tok.2 ∉ ["PRON"; "NOUN"; "PROPN"; "VERB"; "ADJ"; "ADV"; "NUM"; "ADP"])
                   ∧ time tok = true) toks.
Proof.
  intros [Hlen Hrule]. apply members_filter; [done|].
  intros i [word pos] l Hi Hl. rewrite (Hrule i word pos Hi) in Hl.
  injection Hl as <-. apply bucket_rule_time.
Qed.

Lemma follows_rule_others b0 toks labels :
  follows_rule time b0 toks labels →
  members "others" toks labels
  = filter (λ tok, (tok.2 ∉ ["PRON"; "NOUN"; "PROPN"; "VERB"; "ADJ"; "ADV"; "NUM"; "ADP"])
                   ∧ time tok = false) toks.
Proof.
  intros [Hlen Hrule]. apply members_filter; [done|].
  intros i [word pos] l Hi Hl. rewrite (Hrule i word pos Hi) in Hl.
  injection Hl as <-. apply bucket_rule_others.
Qed.

Lemma follows_rule_no_subject toks labels :
  follows_rule time true toks labels → members "subjects" toks labels = [].
Proof.
  revert labels. induction toks as [|tok toks IH]; intros [|l labels] Hr; try done.
  apply follows_rule_cons in Hr as [-> Hr]. simpl in Hr.
  rewrite members_cons, decide_False; [by apply IH|].
  intros [_ ?]%bucket_rule_subjects. done.
Qed.

Lemma follows_rule_nouns b0 toks labels :
  follows_rule time b0 toks labels →
  members "subjects" toks labels ++ members "objects" toks labels
  = filter (λ tok, tok.2 ∈ ["NOUN"; "PROPN"]) toks.
Proof.
  revert b0 labels. induction toks as [|tok toks IH]; intros b0 [|l labels] Hr; try done;
    try (by destruct Hr).
  apply follows_rule_cons in Hr as [-> Hr].
  rewrite !members_cons, filter_cons.
  destruct (decide (tok.2 ∈ ["NOUN"; "PROPN"])) as [Hn|Hn].
  - assert (Hnv : noun_or_verb tok = true).
    { unfold noun_or_verb. apply bool_decide_eq_true. set_solver. }
    rewrite Hnv, orb_true_r in Hr.
    pose proof (follows_rule_no_subject toks labels Hr) as Hs.
    pose proof (IH true labels Hr) as Hsum. rewrite Hs in Hsum |- *. simpl in Hsum.
    destruct b0.
    + rewrite decide_False by (by intros [_ ?]%bucket_rule_subjects).
      rewrite decide_True by (by apply bucket_rule_objects). simpl. by rewrite Hsum.
    + rewrite decide_True by (by apply bucket_rule_subjects).
      rewrite decide_False by (by intros [_ ?]%bucket_rule_objects). simpl.
      by rewrite Hsum.
  - rewrite decide_False by (by intros [? _]%bucket_rule_subjects).
    rewrite decide_False by (by intros [? _]%bucket_rule_objects).
    by apply (IH (b0 || noun_or_verb tok)).
Qed.

Lemma follows_rule_subject b0 toks labels :
  follows_rule time b0 toks labels →
  members "subjects" toks labels
  = if b0 then []
    else match head (filter (λ tok, tok.2 ∈ ["NOUN"; "PROPN"; "VERB"]) toks) with
         | Some tok => if decide (tok.2 = "VERB") then [] else [tok]
         | None => []
         end.
Proof.
  revert b0 labels. induction toks as [|tok toks IH]; intros b0 [|l labels] Hr;
    try (by destruct b0); try (by destruct Hr).
  destruct b0; [by apply follows_rule_no_subject|].
  apply follows_rule_cons in Hr as [-> Hr]. simpl in Hr.
  rewrite members_cons, filter_cons.
  destruct (decide (tok.2 ∈ ["NOUN"; "PROPN"; "VERB"])) as [Hnv|Hnv].
  - assert (Hb : noun_or_verb tok = true) by (by apply bool_decide_eq_true).
    rewrite Hb in Hr. rewrite (follows_rule_no_subject toks labels Hr). simpl.
    destruct (decide (tok.2 = "VERB")) as [Hv|Hv].
    + rewrite decide_False; [done|].
      intros [Hn _]%bucket_rule_subjects. rewrite Hv in Hn. set_solver.
    + rewrite decide_True; [done|].
      apply bucket_rule_subjects. split; [set_solver|done].
  - assert (Hb : noun_or_verb tok = false) by (by apply bool_decide_eq_false).
    rewrite Hb in Hr. rewrite decide_False; [by apply (IH false)|].
    intros [Hn _]%bucket_rule_subjects. set_solver.
Qed.

End rule_members.

Section follows.
Context `{StrOps}.

Lemma core_follows_rule toks :
  follows_rule (λ tok, Core._is_time_expression (lower tok.1)) false toks
    (Core.bucket_labels toks).
Proof.
  split; [apply labels_from_length|]. intros i word pos Hi.
  unfold Core.bucket_labels.
  rewrite (core_labels_rule Core.empty_categories false toks i word pos); [done| |done].
  by rewrite !core_empty_lookup.
Qed.

Lemma legacy_follows_rule toks :
  follows_rule (λ _, false) false toks (Legacy.bucket_labels toks).
Proof.
  split; [apply labels_from_length|]. intros i word pos Hi.
  unfold Legacy.bucket_labels.
  rewrite (legacy_labels_rule Legacy.empty_categories false toks i word pos); [done| |done].
  by rewrite !legacy_empty_lookup.
Qed.

End follows.

Lemma members_relabel k toks labels :
  k ≠ "others" → k ≠ "time_expressions" →
  members k toks
    ((λ l, if decide (l = "time_expressions") then "others" else l) <$> labels)
  = members k toks labels.
Proof.
  intros Ho Ht. revert labels.
  induction toks as [|tok toks IH]; intros [|l labels]; try done.
  rewrite fmap_cons, !members_cons, IH.
  repeat case_decide; congruence.
Qed.

Lemma filter_split_bool (P : token → Prop) `{!∀ tok, Decision (P tok)}
    (t : token → bool) toks :
  filter (λ tok, P tok ∧ t tok = true) toks ++ filter (λ tok, P tok ∧ t tok = false) toks
  ≡ₚ filter P toks.
Proof.
  induction toks as [|tok toks IH]; [done|].
  rewrite !filter_cons.
  destruct (decide (P tok)), (t tok) eqn:Ht;
    repeat case_decide; try naive_solver; simpl;
    first [ apply Permutation_skip, IH
          | etrans; [symmetry; apply Permutation_middle|];
            apply Permutation_skip, IH ].
Qed.

Section bucket_contents.
Context `{StrOps}.

(** X1.  In both converters the pronoun, verb, adjective, adverb, number
    and preposition buckets hold exactly the tokens tagged PRON, VERB,
    ADJ, ADV, NUM and ADP, in input order. *)
Theorem tag_buckets_hold_the_tokens_of_their_tag (toks : list token) :
  ∃ c l : gmap string (list token),
    Core._categorize_words toks = Ok c
    ∧ Legacy._categorize_words toks = Ok l
    ∧ ∀ tag k,
        (tag, k) ∈ [("PRON", "pronouns"); ("VERB", "verbs"); ("ADJ", "adjectives");
                    ("ADV", "adverbs"); ("NUM", "numbers"); ("ADP", "prepositions")] →
        c !!! k = filter (λ tok, tok.2 = tag) toks
        ∧ l !!! k = filter (λ tok, tok.2 = tag) toks.
Proof.
  destruct (core_categorize_words toks) as (c & Hc & _ & Hget).
  destruct (legacy_categorize_words toks) as (l & Hl & _ & Hget').
  exists c, l. split_and!; [done..|]. intros tag k Hin.
  rewrite Hget, Hget'. split.
  - by eapply follows_rule_tag; [apply core_follows_rule|].
  - by eapply follows_rule_tag; [apply legacy_follows_rule|].
Qed.

(** X2.  In both converters the subject bucket holds at most one token:
    the first token of the sentence tagged NOUN, PROPN or VERB, when that
    token is not a verb.  Every other NOUN or PROPN token is an object,
    so subjects followed by objects are the nouns of the sentence in
    input order. *)
Theorem subject_is_the_first_noun_before_any_verb (toks : list token) :
  ∃ c l : gmap string (list token),
    Core._categorize_words toks = Ok c
    ∧ Legacy._categorize_words toks = Ok l
    ∧ c !!! "subjects" = l !!! "subjects"
    ∧ c !!! "objects" = l !!! "objects"
    ∧ (length (c !!! "subjects") ≤ 1)%nat
    ∧ c !!! "subjects"
      = match head (filter (λ tok, tok.2 ∈ ["NOUN"; "PROPN"; "VERB"]) toks) with
        | Some tok => if decide (tok.2 = "VERB") then [] else [tok]
        | None => []
        end
    ∧ c !!! "subjects" ++ c !!! "objects"
      = filter (λ tok, tok.2 ∈ ["NOUN"; "PROPN"]) toks.
Proof.
  destruct (core_categorize_words toks) as (c & Hc & _ & Hget).
  destruct (legacy_categorize_words toks) as (l & Hl & _ & Hget').
  pose proof (follows_rule_subject _ _ _ _ (core_follows_rule toks)) as Hs.
  pose proof (follows_rule_subject _ _ _ _ (legacy_follows_rule toks)) as Hs'.
  pose proof (follows_rule_nouns _ _ _ _ (core_follows_rule toks)) as Hn.
  pose proof (follows_rule_nouns _ _ _ _ (legacy_follows_rule toks)) as Hn'.
  simpl in Hs, Hs'.
  assert (Hsame : c !!! "subjects" = l !!! "subjects") by (by rewrite Hget, Hget', Hs, Hs').
  exists c, l. split_and!; [done..| | | |].
  - rewrite <- !Hget in Hn. rewrite <- !Hget' in Hn'. rewrite <- Hsame in Hn'.
    rewrite <- Hn' in Hn. by apply app_inv_head in Hn.
  - rewrite Hget, Hs. destruct (head _); [|simpl; lia].
    case_decide; simpl; lia.
  - by rewrite Hget, Hs.
  - by rewrite !Hget.
Qed.

(** X3.  The time bucket of the time-aware converter holds exactly the
    tokens whose tag is none of PRON, NOUN, PROPN, VERB, ADJ, ADV, NUM,
    ADP and whose lowercased word is a time expression; its other-bucket
    holds the remaining tokens with such a tag.  A time word tagged as a
    noun, an adverb or any other handled tag is therefore never filed as
    a time expression.  The first converter files all tokens with such a
    tag under others. *)
Theorem time_bucket_takes_only_untagged_time_words (toks : list token) :
  ∃ c l : gmap string (list token),
    Core._categorize_words toks = Ok c
    ∧ Legacy._categorize_words toks = Ok l
    ∧ c !!! "time_expressions"
      = filter (λ tok,
          (tok.2 ∉ ["PRON"; "NOUN"; "PROPN"; "VERB"; "ADJ"; "ADV"; "NUM"; "ADP"])
          ∧ Core._is_time_expression (lower tok.1) = true) toks
    ∧ c !!! "others"
      = filter (λ tok,
          (tok.2 ∉ ["PRON"; "NOUN"; "PROPN"; "VERB"; "ADJ"; "ADV"; "NUM"; "ADP"])
          ∧ Core._is_time_expression (lower tok.1) = false) toks
    ∧ l !!! "others"
      = filter (λ tok,
          tok.2 ∉ ["PRON"; "NOUN"; "PROPN"; "VERB"; "ADJ"; "ADV"; "NUM"; "ADP"]) toks
    ∧ l !!! "others" ≡ₚ c !!! "time_expressions" ++ c !!! "others".
Proof.
  destruct (core_categorize_words toks) as (c & Hc & _ & Hget).
  destruct (legacy_categorize_words toks) as (l & Hl & _ & Hget').
  pose proof (follows_rule_time _ _ _ _ (core_follows_rule toks)) as Ht.
  pose proof (follows_rule_others _ _ _ _ (core_follows_rule toks)) as Ho.
  pose proof (follows_rule_others _ _ _ _ (legacy_follows_rule toks)) as Ho'.
  assert (Hl_others : l !!! "others"
    = filter (λ tok,
        tok.2 ∉ ["PRON"; "NOUN"; "PROPN"; "VERB"; "ADJ"; "ADV"; "NUM"; "ADP"]) toks).
  { rewrite Hget', Ho'. apply list_filter_iff. intros tok. naive_solver. }
  exists c, l. split_and!; [done|done|by rewrite Hget|by rewrite Hget|done|].
  rewrite Hl_others, !Hget, Ht, Ho.
  symmetry.
  apply (filter_split_bool
    (λ tok, tok.2 ∉ ["PRON"; "NOUN"; "PROPN"; "VERB"; "ADJ"; "ADV"; "NUM"; "ADP"])
    (λ tok, Core._is_time_expression (lower tok.1))).
Qed.

(** X4.  The two converters classify alike: the first converter gives
    every token the bucket that the time-aware converter gives it, except
    that time expressions go to others.  So all buckets but others and
    time hold the same tokens in both. *)
Theorem converters_classify_alike_up_to_time (toks : list token) :
  Legacy.bucket_labels toks
  = (λ k, if decide (k = "time_expressions") then "others" else k)
    <$> Core.bucket_labels toks
  ∧ ∃ c l,
      Core._categorize_words toks = Ok c
      ∧ Legacy._categorize_words toks = Ok l
      ∧ ∀ k, k ≠ "others" → k ≠ "time_expressions" → l !!! k = c !!! k.
Proof.
  assert (Hlabels : Legacy.bucket_labels toks
    = (λ k, if decide (k = "time_expressions") then "others" else k)
      <$> Core.bucket_labels toks).
  { destruct (core_follows_rule toks) as [Hlen Hrule].
    destruct (legacy_follows_rule toks) as [Hlen' Hrule'].
    apply list_eq. intros i. rewrite list_lookup_fmap.
    destruct (toks !! i) as [[word pos]|] eqn:Hi.
    - rewrite (Hrule i word pos Hi), (Hrule' i word pos Hi). simpl. f_equal.
      unfold bucket_rule.
      destruct (Core._is_time_expression (lower word)),
        (existsb noun_or_verb (take i toks)); repeat case_decide; done.
    - apply lookup_ge_None in Hi.
      rewrite (proj2 (lookup_ge_None (Legacy.bucket_labels toks) i)) by lia.
      by rewrite (proj2 (lookup_ge_None (Core.bucket_labels toks) i)) by lia. }
  split; [done|].
  destruct (core_categorize_words toks) as (c & Hc & _ & Hget).
  destruct (legacy_categorize_words toks) as (l & Hl & _ & Hget').
  exists c, l. split_and!; [done..|]. intros k Ho Ht.
  rewrite Hget, Hget', Hlabels. by apply members_relabel.
Qed.

End bucket_contents.

(** ** The shape of the reordered sentence and the analysis report *)

Lemma length_filter_tags (toks : list token) :
  length (filter (λ tok, tok.2 ∉ ["PRON"; "ADV"; "NUM"; "ADP"]) toks)
  + length (filter (λ tok, tok.2 = "PRON") toks)
  + length (filter (λ tok, tok.2 = "ADV") toks)
  + length (filter (λ tok, tok.2 = "NUM") toks)
  + length (filter (λ tok, tok.2 = "ADP") toks)
  = length toks.
Proof.
  induction toks as [|[word pos] toks IH]; [done|].
  rewrite !filter_cons. simpl.
  destruct (decide (pos = "PRON")) as [->|];
    [|destruct (decide (pos = "ADV")) as [->|];
      [|destruct (decide (pos = "NUM")) as [->|];
        [|destruct (decide (pos = "ADP")) as [->|]]]];
    repeat case_decide; simpl; try lia; set_solver.
Qed.

Section reordered_shape.
Context `{StrOps}.

Lemma core_buckets_permutation toks (c : gmap string (list token)) :
  Core._categorize_words toks = Ok c →
  concat (map (λ k, c !!! k) Core.bucket_order) ≡ₚ toks.
Proof.
  intros Hc. destruct (core_categorize_words toks) as (c' & Hc' & _ & Hget).
  assert (c' = c) by congruence. subst c'.
  erewrite map_ext; [|intros k; apply Hget].
  apply members_partition.
  - unfold Core.bucket_order. apply (bool_decide_unpack _). by vm_compute.
  - apply labels_from_length.
  - eapply Forall_impl; [apply (labels_from_keys _ _ core_bucket_of_key)|].
    intros k Hk. unfold Core.bucket_keys in Hk. unfold Core.bucket_order. set_solver.
Qed.

Lemma legacy_buckets_permutation toks (c : gmap string (list token)) :
  Legacy._categorize_words toks = Ok c →
  concat (map (λ k, c !!! k) Legacy.bucket_order) ≡ₚ toks.
Proof.
  intros Hc. destruct (legacy_categorize_words toks) as (c' & Hc' & _ & Hget).
  assert (c' = c) by congruence. subst c'.
  erewrite map_ext; [|intros k; apply Hget].
  apply members_partition.
  - unfold Legacy.bucket_order. apply (bool_decide_unpack _). by vm_compute.
  - apply labels_from_length.
  - eapply Forall_impl; [apply (labels_from_keys _ _ legacy_bucket_of_key)|].
    intros k Hk. unfold Legacy.bucket_keys in Hk. unfold Legacy.bucket_order. set_solver.
Qed.

(** X5.  The reordered sentence of both converters, bucket by bucket:
    the time expressions (time-aware converter only), then the tokens
    tagged PRON, the subject, the tokens tagged ADJ, those tagged NUM,
    the objects, then all tokens tagged VERB, then the tokens tagged
    ADV, those tagged ADP, and last the remaining tokens with none of
    these tags, each group in input order.  So every verb comes after
    all time expressions, pronouns, nouns, adjectives and numbers, and
    before all adverbs, prepositions and other tokens.  The subject is
    the first token tagged NOUN, PROPN or VERB when that is not a verb,
    and the objects are the other nouns. *)
Theorem verbs_follow_pronouns_nouns_adjectives_numbers (toks : list token) :
  let tagged := λ tag, filter (λ tok : token, tok.2 = tag) toks in
  let unhandled := λ tok : token,
    tok.2 ∉ ["PRON"; "NOUN"; "PROPN"; "VERB"; "ADJ"; "ADV"; "NUM"; "ADP"] in
  let is_time := λ tok : token, Core._is_time_expression (lower tok.1) in
  let subject :=
    match head (filter (λ tok, tok.2 ∈ ["NOUN"; "PROPN"; "VERB"]) toks) with
    | Some tok => if decide (tok.2 = "VERB") then [] else [tok]
    | None => []
    end in
  ∃ objects,
    subject ++ objects = filter (λ tok, tok.2 ∈ ["NOUN"; "PROPN"]) toks
    ∧ Core._categorize_words toks ≫= Core._reorder_for_sign_language
      = Ok (filter (λ tok, unhandled tok ∧ is_time tok = true) toks
            ++ tagged "PRON" ++ subject ++ tagged "ADJ" ++ tagged "NUM" ++ objects
            ++ tagged "VERB"
            ++ tagged "ADV" ++ tagged "ADP"
            ++ filter (λ tok, unhandled tok ∧ is_time tok = false) toks)
    ∧ Legacy._categorize_words toks ≫= Legacy._reorder_for_sign_language
      = Ok (tagged "PRON" ++ subject ++ tagged "ADJ" ++ tagged "NUM" ++ objects
            ++ tagged "VERB"
            ++ tagged "ADV" ++ tagged "ADP"
            ++ filter unhandled toks).
Proof.
  intros tagged unhandled is_time subject.
  destruct (core_categorize_words toks) as (c & Hc & Hdom & Hget).
  destruct (legacy_categorize_words toks) as (l & Hl & Hdom' & Hget').
  pose proof (core_follows_rule toks) as Hr.
  pose proof (legacy_follows_rule toks) as Hr'.
  pose proof (follows_rule_subject _ _ _ _ Hr) as Hs.
  pose proof (follows_rule_subject _ _ _ _ Hr') as Hs'.
  pose proof (follows_rule_nouns _ _ _ _ Hr) as Hn.
  pose proof (follows_rule_nouns _ _ _ _ Hr') as Hn'.
  simpl in Hs, Hs'. fold subject in Hs, Hs'.
  assert (Hobj : members "objects" toks (Legacy.bucket_labels toks)
                 = members "objects" toks (Core.bucket_labels toks)).
  { rewrite Hs in Hn. rewrite Hs', <- Hn in Hn'. by apply app_inv_head in Hn'. }
  exists (members "objects" toks (Core.bucket_labels toks)).
  split; [by rewrite <- Hs|].
  split.
  - rewrite Hc, bind_Ok, (core_reorder c Hdom). f_equal.
    unfold Core.bucket_order. simpl. rewrite !Hget, app_nil_r, Hs.
    rewrite (follows_rule_time _ _ _ _ Hr), (follows_rule_others _ _ _ _ Hr).
    rewrite (follows_rule_tag _ _ _ _ "PRON" "pronouns" Hr) by set_solver.
    rewrite (follows_rule_tag _ _ _ _ "ADJ" "adjectives" Hr) by set_solver.
    rewrite (follows_rule_tag _ _ _ _ "NUM" "numbers" Hr) by set_solver.
    rewrite (follows_rule_tag _ _ _ _ "VERB" "verbs" Hr) by set_solver.
    rewrite (follows_rule_tag _ _ _ _ "ADV" "adverbs" Hr) by set_solver.
    rewrite (follows_rule_tag _ _ _ _ "ADP" "prepositions" Hr) by set_solver.
    done.
  - rewrite Hl, bind_Ok, (legacy_reorder l Hdom'). f_equal.
    unfold Legacy.bucket_order. simpl. rewrite !Hget', app_nil_r, Hs', Hobj.
    rewrite (follows_rule_others _ _ _ _ Hr').
    rewrite (follows_rule_tag _ _ _ _ "PRON" "pronouns" Hr') by set_solver.
    rewrite (follows_rule_tag _ _ _ _ "ADJ" "adjectives" Hr') by set_solver.
    rewrite (follows_rule_tag _ _ _ _ "NUM" "numbers" Hr') by set_solver.
    rewrite (follows_rule_tag _ _ _ _ "VERB" "verbs" Hr') by set_solver.
    rewrite (follows_rule_tag _ _ _ _ "ADV" "adverbs" Hr') by set_solver.
    rewrite (follows_rule_tag _ _ _ _ "ADP" "prepositions" Hr') by set_solver.
    do 8 f_equal. apply list_filter_iff. intros tok. unfold unhandled. naive_solver.
Qed.

End reordered_shape.

Section analysis_report.
Context `{StrOps}.

Lemma legacy_create_analysis_fields self toks (c : gmap string (list token)) seq :
  dom c = Legacy.bucket_keys →
  ∃ a, Legacy._create_analysis self toks c seq = Ok a
       ∧ Legacy.word_count a = length toks
       ∧ Legacy.sign_count a = length seq
       ∧ Legacy.structure_changes a =
           {| Legacy.subjects := length (c !!! "subjects");
              Legacy.verbs := length (c !!! "verbs");
              Legacy.objects := length (c !!! "objects");
              Legacy.adjectives := length (c !!! "adjectives");
              Legacy.others := length (c !!! "others") |}
       ∧ Legacy.vocabulary_mapped a =
           length (filter
             (λ s, negb (isupper s) = true
                   ∨ s ∈ (map_to_list (Legacy.sign_dictionary self)).*2) seq).
Proof.
  intros Hdom. unfold Legacy._create_analysis.
  repeat (rewrite getitem_Ok by (apply (legacy_key_present _ _ Hdom);
                                 unfold Legacy.bucket_order; set_solver); simpl).
  eexists. split_and!; reflexivity.
Qed.

(** X6.  The analysis report counts every word once in [word_count] and
    in the count of the emitted sequence, but its bucket counts leave out
    pronouns, adverbs, numbers and prepositions: the reported counts add
    up to the number of tokens with another tag.  The subject count is 0
    or 1, and subjects and objects together count the nouns. *)
Theorem reported_counts_leave_out_four_buckets
    (core : Core.converter) (legacy : Legacy.converter) (toks : list token) :
  Core.is_initialized core = true →
  Legacy.is_initialized legacy = true →
  (∃ r,
      Core.convert_to_sign_language core toks = Ok (Core.Converted r)
      ∧ Core.word_count (Core.structure_analysis r) = length toks
      ∧ Core.reordered_count (Core.structure_analysis r) = length toks
      ∧ Core.subjects (Core.structure_changes (Core.structure_analysis r))
        + Core.verbs (Core.structure_changes (Core.structure_analysis r))
        + Core.objects (Core.structure_changes (Core.structure_analysis r))
        + Core.adjectives (Core.structure_changes (Core.structure_analysis r))
        + Core.time_expressions (Core.structure_changes (Core.structure_analysis r))
        + Core.others (Core.structure_changes (Core.structure_analysis r))
        = length (filter (λ tok, tok.2 ∉ ["PRON"; "ADV"; "NUM"; "ADP"]) toks)
      ∧ (Core.subjects (Core.structure_changes (Core.structure_analysis r)) ≤ 1)%nat
      ∧ Core.subjects (Core.structure_changes (Core.structure_analysis r))
        + Core.objects (Core.structure_changes (Core.structure_analysis r))
        = length (filter (λ tok, tok.2 ∈ ["NOUN"; "PROPN"]) toks))
  ∧ (∃ r,
      Legacy.convert_to_sign_language legacy toks = Ok (Legacy.Converted r)
      ∧ Legacy.word_count (Legacy.structure_analysis r) = length toks
      ∧ Legacy.sign_count (Legacy.structure_analysis r) = length toks
      ∧ Legacy.subjects (Legacy.structure_changes (Legacy.structure_analysis r))
        + Legacy.verbs (Legacy.structure_changes (Legacy.structure_analysis r))
        + Legacy.objects (Legacy.structure_changes (Legacy.structure_analysis r))
        + Legacy.adjectives (Legacy.structure_changes (Legacy.structure_analysis r))
        + Legacy.others (Legacy.structure_changes (Legacy.structure_analysis r))
        = length (filter (λ tok, tok.2 ∉ ["PRON"; "ADV"; "NUM"; "ADP"]) toks)
      ∧ (Legacy.subjects (Legacy.structure_changes (Legacy.structure_analysis r)) ≤ 1)%nat
      ∧ Legacy.subjects (Legacy.structure_changes (Legacy.structure_analysis r))
        + Legacy.objects (Legacy.structure_changes (Legacy.structure_analysis r))
        = length (filter (λ tok, tok.2 ∈ ["NOUN"; "PROPN"]) toks)).
Proof.
  intros Hcore Hlegacy.
  pose proof (length_filter_tags toks) as Htags. split.
  - destruct (core_convert core toks Hcore) as (c & details & a & Hc & _ & Ha & Hconv).
    destruct (core_categorize_words toks) as (c' & Hc' & Hdom & Hget).
    assert (c' = c) by congruence. subst c'.
    destruct (core_create_analysis toks c
                (concat (map (λ k, c !!! k) Core.bucket_order)).*1 Hdom)
      as (a' & Ha' & Hwc & Hrc & Hsc).
    assert (a' = a) by congruence. subst a'.
    pose proof (core_buckets_permutation toks c Hc) as Hperm.
    pose proof (core_follows_rule toks) as Hr.
    pose proof (follows_rule_nouns _ _ _ _ Hr) as Hn.
    pose proof (follows_rule_subject _ _ _ _ Hr) as Hs. simpl in Hs.
    pose proof (follows_rule_tag _ _ _ _ "PRON" "pronouns" Hr) as Hpron.
    pose proof (follows_rule_tag _ _ _ _ "ADV" "adverbs" Hr) as Hadv.
    pose proof (follows_rule_tag _ _ _ _ "NUM" "numbers" Hr) as Hnum.
    pose proof (follows_rule_tag _ _ _ _ "ADP" "prepositions" Hr) as Hadp.
    rewrite <- (Hget "subjects"), <- (Hget "objects") in Hn.
    rewrite <- (Hget "subjects") in Hs.
    rewrite <- Hget in Hpron, Hadv, Hnum, Hadp.
    eexists. split; [exact Hconv|]. cbn [Core.structure_analysis].
    rewrite Hwc, Hrc, Hsc. cbn.
    assert (Hlen_s : (length (c !!! "subjects") ≤ 1)%nat).
    { rewrite Hs. destruct (head _); [|simpl; lia]. case_decide; simpl; lia. }
    apply Permutation_length in Hperm.
    unfold Core.bucket_order in Hperm. simpl in Hperm.
    rewrite !length_app in Hperm. simpl in Hperm.
    rewrite Hpron, Hadv, Hnum, Hadp in Hperm by set_solver.
    apply (f_equal length) in Hn. rewrite length_app in Hn.
    split_and!; [done| |lia|done|done].
    rewrite length_fmap. unfold Core.bucket_order. simpl.
    rewrite !length_app. simpl.
    rewrite Hpron, Hadv, Hnum, Hadp by set_solver. lia.
  - destruct (legacy_convert legacy toks Hlegacy) as (c & a & Hc & Hconv).
    destruct (legacy_categorize_words toks) as (c' & Hc' & Hdom & Hget).
    assert (c' = c) by congruence. subst c'.
    pose proof (legacy_buckets_permutation toks c Hc) as Hperm.
    pose proof (legacy_follows_rule toks) as Hr.
    pose proof (follows_rule_nouns _ _ _ _ Hr) as Hn.
    pose proof (follows_rule_subject _ _ _ _ Hr) as Hs. simpl in Hs.
    pose proof (follows_rule_tag _ _ _ _ "PRON" "pronouns" Hr) as Hpron.
    pose proof (follows_rule_tag _ _ _ _ "ADV" "adverbs" Hr) as Hadv.
    pose proof (follows_rule_tag _ _ _ _ "NUM" "numbers" Hr) as Hnum.
    pose proof (follows_rule_tag _ _ _ _ "ADP" "prepositions" Hr) as Hadp.
    rewrite <- (Hget "subjects"), <- (Hget "objects") in Hn.
    rewrite <- (Hget "subjects") in Hs.
    rewrite <- Hget in Hpron, Hadv, Hnum, Hadp.
    unfold Legacy.convert_to_sign_language in Hconv.
    rewrite Hlegacy, Hc in Hconv. cbn [negb] in Hconv.
    rewrite bind_Ok, (legacy_reorder c Hdom), bind_Ok in Hconv.
    rewrite legacy_convert_vocabulary, bind_Ok in Hconv.
    match type of Hconv with
    | (Legacy._create_analysis _ _ _ ?seq ≫= _) = _ =>
        destruct (legacy_create_analysis_fields legacy toks c seq Hdom)
          as (a' & Ha' & Hwc & Hsn & Hsc & _)
    end.
    rewrite Ha', bind_Ok in Hconv.
    unfold Legacy.convert_to_sign_language.
    rewrite Hlegacy, Hc. cbn [negb].
    rewrite bind_Ok, (legacy_reorder c Hdom), bind_Ok.
    rewrite legacy_convert_vocabulary, bind_Ok, Ha', bind_Ok.
    eexists. split; [reflexivity|]. cbn [Legacy.structure_analysis].
    rewrite Hwc, Hsn, Hsc. cbn.
    assert (Hlen_s : (length (c !!! "subjects") ≤ 1)%nat).
    { rewrite Hs. destruct (head _); [|simpl; lia]. case_decide; simpl; lia. }
    apply Permutation_length in Hperm.
    unfold Legacy.bucket_order in Hperm. simpl in Hperm.
    rewrite !length_app in Hperm. simpl in Hperm.
    rewrite Hpron, Hadv, Hnum, Hadp in Hperm by set_solver.
    apply (f_equal length) in Hn. rewrite length_app in Hn.
    split_and!; [done| |lia|done|done].
    rewrite length_fmap. unfold Legacy.bucket_order. simpl.
    rewrite !length_app. simpl.
    rewrite Hpron, Hadv, Hnum, Hadp by set_solver. lia.
Qed.

End analysis_report.

Lemma length_filter_fmap {A B} (f : A → B) (Q : B → Prop) `{!∀ y, Decision (Q y)}
    (l : list A) :
  length (filter Q (f <$> l)) = length (filter (λ x, Q (f x)) l).
Proof.
  induction l as [|x l IH]; [done|].
  rewrite fmap_cons, !filter_cons. case_decide; simpl; by rewrite IH.
Qed.

Lemma length_filter_mono {A} (P Q : A → Prop)
    `{!∀ x, Decision (P x)} `{!∀ x, Decision (Q x)} (l : list A) :
  (∀ x, P x → Q x) → (length (filter P l) ≤ length (filter Q l))%nat.
Proof.
  intros HPQ. induction l as [|x l IH]; [done|].
  rewrite !filter_cons. repeat case_decide; simpl; try lia. naive_solver.
Qed.

Section vocabulary_count.
Context `{StrOps}.

Lemma legacy_convert_analysis self toks :
  Legacy.is_initialized self = true →
  ∃ c a,
    Legacy._categorize_words toks = Ok c
    ∧ dom c = Legacy.bucket_keys
    ∧ Legacy._create_analysis self toks c
        ((λ tok, default (upper tok.1) (Legacy.sign_dictionary self !! normalized tok.1))
         <$> concat (map (λ k, c !!! k) Legacy.bucket_order)) = Ok a
    ∧ Legacy.convert_to_sign_language self toks
      = Ok (Legacy.Converted
          {| Legacy.original_sentence := join " " (toks.*1);
             Legacy.sign_language_sequence :=
               (λ tok, default (upper tok.1)
                         (Legacy.sign_dictionary self !! normalized tok.1))
               <$> concat (map (λ k, c !!! k) Legacy.bucket_order);
             Legacy.structure_analysis := a;
             Legacy.pos_analysis := c |}).
Proof.
  intros Hinit.
  destruct (legacy_categorize_words toks) as (c & Hc & Hdom & _).
  destruct (legacy_create_analysis self toks c
    ((λ tok, default (upper tok.1) (Legacy.sign_dictionary self !! normalized tok.1))
       <$> concat (map (λ k, c !!! k) Legacy.bucket_order)) Hdom) as (a & Ha & _).
  exists c, a. split_and!; [done..|].
  unfold Legacy.convert_to_sign_language.
  rewrite Hinit, Hc. cbn [negb]. rewrite bind_Ok, (legacy_reorder c Hdom), bind_Ok.
  by rewrite legacy_convert_vocabulary, bind_Ok, Ha.
Qed.

(** X7.  In the report of the first converter, [vocabulary_mapped] lies
    between the number of words found in the dictionary and the number
    of signs.  It is not the number of dictionary hits: a word that is
    not in the dictionary is counted as mapped when its uppercased form
    is not an uppercase string, so with an empty dictionary the count is
    the number of such words. *)
Theorem vocabulary_mapped_bounds (legacy : Legacy.converter) (toks : list token) :
  Legacy.is_initialized legacy = true →
  ∃ r,
    Legacy.convert_to_sign_language legacy toks = Ok (Legacy.Converted r)
    ∧ (length (filter (λ tok, is_Some (Legacy.sign_dictionary legacy !! normalized tok.1))
                 toks)
       ≤ Legacy.vocabulary_mapped (Legacy.structure_analysis r))%nat
    ∧ (Legacy.vocabulary_mapped (Legacy.structure_analysis r)
       ≤ Legacy.sign_count (Legacy.structure_analysis r))%nat
    ∧ (Legacy.sign_dictionary legacy = ∅ →
       Legacy.vocabulary_mapped (Legacy.structure_analysis r)
       = length (filter (λ tok, isupper (upper tok.1) = false) toks)).
Proof.
  intros Hinit.
  destruct (legacy_convert_analysis legacy toks Hinit) as (c & a & Hc & Hdom & Ha & Hconv).
  set (gloss := λ tok : token,
    default (upper tok.1) (Legacy.sign_dictionary legacy !! normalized tok.1)) in *.
  destruct (legacy_create_analysis_fields legacy toks c
              (gloss <$> concat (map (λ k, c !!! k) Legacy.bucket_order)) Hdom)
    as (a' & Ha' & _ & Hsn & _ & Hvm).
  assert (a' = a) by congruence. subst a'.
  pose proof (legacy_buckets_permutation toks c Hc) as Hperm.
  eexists. split; [exact Hconv|]. cbn [Legacy.structure_analysis].
  rewrite Hvm, Hsn, length_filter_fmap, Hperm.
  split_and!.
  - apply length_filter_mono. intros [word pos] [g Hg]. right.
    unfold gloss. simpl in *. rewrite Hg. simpl.
    apply list_elem_of_fmap. exists (normalized word, g). split; [done|].
    by apply elem_of_map_to_list.
  - rewrite length_fmap. apply length_filter.
  - intros Hempty. f_equal. apply list_filter_iff. intros [word pos].
    unfold gloss. rewrite Hempty, lookup_empty, map_to_list_empty. simpl.
    split.
    + intros [Hup|Hin]; [by apply negb_true_iff|by apply elem_of_nil in Hin].
    + intros Hup. left. by apply negb_true_iff.
Qed.

End vocabulary_count.

(** ** Further properties of the dictionary loaders *)

Lemma fold_left_lookup_steps (f : gmap string string → string → gmap string string)
    (lines : list string) (d : gmap string string) k :
  (∀ d line, f d line !! k = from_option Some (d !! k) (f ∅ line !! k)) →
  (∀ line, line ∈ lines → f ∅ line !! k = None) →
  fold_left f lines d !! k = d !! k.
Proof.
  intros Hstep. revert d. induction lines as [|line lines IH]; intros d Hnone; [done|].
  simpl. rewrite IH by (intros l Hl; apply Hnone; by right).
  rewrite Hstep, Hnone by left. done.
Qed.

Lemma fold_left_size_le (f : gmap string string → string → gmap string string)
    (lines : list string) (d : gmap string string) :
  (∀ d line, (size (f d line) ≤ S (size d))%nat) →
  (size (fold_left f lines d) ≤ size d + length lines)%nat.
Proof.
  intros Hstep. revert d. induction lines as [|line lines IH]; intros d; simpl; [lia|].
  specialize (IH (f d line)). specialize (Hstep d line). lia.
Qed.

Lemma fold_left_filter_relevant {A} (f : A → string → A) (P : string → Prop)
    `{!∀ line, Decision (P line)} (lines : list string) (d : A) :
  (∀ d line, ¬ P line → f d line = d) →
  fold_left f lines d = fold_left f (filter P lines) d.
Proof.
  intros Hskip. revert d. induction lines as [|line lines IH]; intros d; [done|].
  rewrite filter_cons. case_decide; simpl; [done|]. by rewrite Hskip.
Qed.

Lemma size_insert_le (d : gmap string string) k v : (size (<[k:=v]> d) ≤ S (size d))%nat.
Proof.
  destruct (d !! k) eqn:Hk.
  - rewrite map_size_insert_Some by eauto. lia.
  - by rewrite map_size_insert_None.
Qed.

Section loaders.
Context `{StrOps}.

Lemma core_load_line_lookup (d : gmap string string) line k :
  Core.load_line d line !! k
  = from_option Some (d !! k) (Core.load_line ∅ line !! k).
Proof.
  unfold Core.load_line.
  destruct (bool_decide (strip line = "") || startswith "#" (strip line));
    [by rewrite lookup_empty|].
  destruct (contains "=" (strip line)); [|by rewrite lookup_empty].
  destruct (split1 "=" (strip line)) as [|w [|s [|? ?]]]; try by rewrite lookup_empty.
  destruct (negb _ && negb _); [|by rewrite lookup_empty].
  destruct (decide (lower (strip w) = k)) as [<-|Hne].
  - by rewrite !lookup_insert_eq.
  - by rewrite !lookup_insert_ne, lookup_empty by done.
Qed.

Lemma legacy_load_line_lookup (d : gmap string string) line k :
  Legacy.load_line d line !! k
  = from_option Some (d !! k) (Legacy.load_line ∅ line !! k).
Proof.
  unfold Legacy.load_line.
  destruct (bool_decide (strip line = "") || startswith "#" (strip line));
    [by rewrite lookup_empty|].
  destruct (contains "=" (strip line)); [|by rewrite lookup_empty].
  destruct (split1 "=" (strip line)) as [|w [|s [|? ?]]]; try by rewrite lookup_empty.
  destruct (negb _ && negb _); [|by rewrite lookup_empty].
  destruct (decide (strip w = k)) as [<-|Hne].
  - by rewrite !lookup_insert_eq.
  - by rewrite !lookup_insert_ne, lookup_empty by done.
Qed.

Lemma core_load_line_size (d : gmap string string) line :
  (size (Core.load_line d line) ≤ S (size d))%nat.
Proof.
  unfold Core.load_line.
  repeat (match goal with |- context [if ?b then _ else _] => destruct b end; try lia).
  destruct (split1 "=" (strip line)) as [|w [|s [|? ?]]]; try lia.
  destruct (negb _ && negb _); [apply size_insert_le|lia].
Qed.

Lemma legacy_load_line_size (d : gmap string string) line :
  (size (Legacy.load_line d line) ≤ S (size d))%nat.
Proof.
  unfold Legacy.load_line.
  repeat (match goal with |- context [if ?b then _ else _] => destruct b end; try lia).
  destruct (split1 "=" (strip line)) as [|w [|s [|? ?]]]; try lia.
  destruct (negb _ && negb _); [apply size_insert_le|lia].
Qed.

Lemma core_load_line_skip (d : gmap string string) line :
  ¬ (contains "=" (strip line) = true ∧ startswith "#" (strip line) = false) →
  Core.load_line d line = d.
Proof.
  intros Hskip. unfold Core.load_line.
  destruct (bool_decide (strip line = "")); simpl; [done|].
  destruct (startswith "#" (strip line)); [done|].
  destruct (contains "=" (strip line)); [|done]. by destruct Hskip.
Qed.

Lemma legacy_load_line_skip (d : gmap string string) line :
  ¬ (contains "=" (strip line) = true ∧ startswith "#" (strip line) = false) →
  Legacy.load_line d line = d.
Proof.
  intros Hskip. unfold Legacy.load_line.
  destruct (bool_decide (strip line = "")); simpl; [done|].
  destruct (startswith "#" (strip line)); [done|].
  destruct (contains "=" (strip line)); [|done]. by destruct Hskip.
Qed.

Lemma core_load_line_nonempty (d : gmap string string) line k v :
  Core.load_line d line !! k = Some v → d !! k = Some v ∨ (k ≠ "" ∧ v ≠ "").
Proof.
  unfold Core.load_line.
  destruct (bool_decide (strip line = "") || startswith "#" (strip line)); [by left|].
  destruct (contains "=" (strip line)); [|by left].
  destruct (split1 "=" (strip line)) as [|w [|s [|? ?]]]; try by left.
  destruct (bool_decide (lower (strip w) = "")) eqn:Hw; simpl; [by left|].
  destruct (bool_decide (upper (strip s) = "")) eqn:Hs; simpl; [by left|].
  apply bool_decide_eq_false in Hw, Hs.
  destruct (decide (lower (strip w) = k)) as [<-|Hne].
  - rewrite lookup_insert_eq. intros [= <-]. by right.
  - rewrite lookup_insert_ne by done. by left.
Qed.

Lemma legacy_load_line_nonempty (d : gmap string string) line k v :
  Legacy.load_line d line !! k = Some v → d !! k = Some v ∨ (k ≠ "" ∧ v ≠ "").
Proof.
  unfold Legacy.load_line.
  destruct (bool_decide (strip line = "") || startswith "#" (strip line)); [by left|].
  destruct (contains "=" (strip line)); [|by left].
  destruct (split1 "=" (strip line)) as [|w [|s [|? ?]]]; try by left.
  destruct (bool_decide (strip w = "")) eqn:Hw; simpl; [by left|].
  destruct (bool_decide (strip s = "")) eqn:Hs; simpl; [by left|].
  apply bool_decide_eq_false in Hw, Hs.
  destruct (decide (strip w = k)) as [<-|Hne].
  - rewrite lookup_insert_eq. intros [= <-]. by right.
  - rewrite lookup_insert_ne by done. by left.
Qed.

Lemma fold_load_nonempty (f : gmap string string → string → gmap string string)
    lines (d : gmap string string) k v :
  (∀ d line k v, f d line !! k = Some v → d !! k = Some v ∨ (k ≠ "" ∧ v ≠ "")) →
  fold_left f lines d !! k = Some v → d !! k = Some v ∨ (k ≠ "" ∧ v ≠ "").
Proof.
  intros Hstep. revert d. induction lines as [|line lines IH]; intros d; simpl; [by left|].
  intros [Hd|?]%IH; [|by right]. by apply Hstep in Hd.
Qed.

Lemma fallback_dictionary_nonempty_entries k v :
  Core._get_fallback_dictionary !! k = Some v → k ≠ "" ∧ v ≠ "".
Proof.
  assert (Hall : map_Forall (λ k v : string, k ≠ "" ∧ v ≠ "") Core._get_fallback_dictionary).
  { apply (bool_decide_unpack _). by vm_compute. }
  apply Hall.
Qed.

(** X8.  Neither loader ever stores an empty key or an empty gloss,
    whatever the dictionary file holds and whether or not it can be
    read. *)
Theorem loaded_entries_are_never_empty (file : dict_file) (k v : string) :
  (Core._load_dictionary_from_file file !! k = Some v → k ≠ "" ∧ v ≠ "")
  ∧ (Legacy._load_dictionary_from_file file !! k = Some v → k ≠ "" ∧ v ≠ "").
Proof.
  split.
  - destruct file as [|delivered|lines]; simpl;
      try apply fallback_dictionary_nonempty_entries.
    intros [Hd|?]%(fold_load_nonempty _ _ _ _ _ core_load_line_nonempty); [|done].
    by rewrite lookup_empty in Hd.
  - destruct file as [|delivered|lines]; simpl; [by rewrite lookup_empty|..];
      intros [Hd|?]%(fold_load_nonempty _ _ _ _ _ legacy_load_line_nonempty); try done;
      by rewrite lookup_empty in Hd.
Qed.

(** X9.  Later lines win: when a line of the file yields the entry
    [k = v] and no line after it yields an entry for [k], the loaded
    dictionary maps [k] to [v], whatever the lines before it hold. *)
Theorem last_line_for_a_key_wins (lines1 lines2 : list string) (line k v : string) :
  (∀ l, l ∈ lines2 → Core.load_line ∅ l !! k = None) →
  (∀ l, l ∈ lines2 → Legacy.load_line ∅ l !! k = None) →
  (Core.load_line ∅ line !! k = Some v →
     Core._load_dictionary_from_file (Text (lines1 ++ line :: lines2)) !! k = Some v)
  ∧ (Legacy.load_line ∅ line !! k = Some v →
     Legacy._load_dictionary_from_file (Text (lines1 ++ line :: lines2)) !! k = Some v).
Proof.
  intros Hcore Hlegacy. split; intros Hline; simpl; rewrite fold_left_app; simpl.
  - rewrite (fold_left_lookup_steps _ _ _ _ (λ d l, core_load_line_lookup d l k) Hcore).
    by rewrite core_load_line_lookup, Hline.
  - rewrite (fold_left_lookup_steps _ _ _ _ (λ d l, legacy_load_line_lookup d l k) Hlegacy).
    by rewrite legacy_load_line_lookup, Hline.
Qed.

(** X10.  Only the lines that, once stripped, hold an [=] and do not
    start with [#] matter: dropping all other lines from the file does
    not change the loaded dictionary, and the dictionary has at most as
    many entries as the file has such lines. *)
Theorem only_entry_lines_matter (lines : list string) :
  let entry_line := λ line,
    contains "=" (strip line) = true ∧ startswith "#" (strip line) = false in
  Core._load_dictionary_from_file (Text lines)
  = Core._load_dictionary_from_file (Text (filter entry_line lines))
  ∧ Legacy._load_dictionary_from_file (Text lines)
    = Legacy._load_dictionary_from_file (Text (filter entry_line lines))
  ∧ (size (Core._load_dictionary_from_file (Text lines))
     ≤ length (filter entry_line lines))%nat
  ∧ (size (Legacy._load_dictionary_from_file (Text lines))
     ≤ length (filter entry_line lines))%nat.
Proof.
  intros entry_line.
  assert (Hcore : Core._load_dictionary_from_file (Text lines)
            = Core._load_dictionary_from_file (Text (filter entry_line lines))).
  { simpl. apply fold_left_filter_relevant. intros d line. apply core_load_line_skip. }
  assert (Hlegacy : Legacy._load_dictionary_from_file (Text lines)
            = Legacy._load_dictionary_from_file (Text (filter entry_line lines))).
  { simpl. apply fold_left_filter_relevant. intros d line. apply legacy_load_line_skip. }
  split_and!; [done|done|..].
  - rewrite Hcore. simpl.
    pose proof (fold_left_size_le Core.load_line (filter entry_line lines) ∅
                  core_load_line_size) as Hsize.
    by rewrite map_size_empty in Hsize.
  - rewrite Hlegacy. simpl.
    pose proof (fold_left_size_le Legacy.load_line (filter entry_line lines) ∅
                  legacy_load_line_size) as Hsize.
    by rewrite map_size_empty in Hsize.
Qed.

End loaders.

(** ** The tagger adapters *)

Lemma dict_literal_lookup_Some {V} (entries : list (string * V)) k v :
  dict_literal entries !! k = Some v → (k, v) ∈ entries.
Proof.
  unfold dict_literal.
  cut (∀ d : gmap string V,
         fold_left (λ d kv, <[kv.1 := kv.2]> d) entries d !! k = Some v →
         (k, v) ∈ entries ∨ d !! k = Some v).
  { intros Hcut Hk. destruct (Hcut ∅ Hk) as [?|Hd]; [done|].
    by rewrite lookup_empty in Hd. }
  induction entries as [|[k0 v0] entries IH]; intros d; simpl; [by right|].
  intros [Hin|Hd]%IH; [left; by right|].
  destruct (decide (k0 = k)) as [->|Hne].
  - rewrite lookup_insert_eq in Hd. injection Hd as ->. left. by left.
  - rewrite lookup_insert_ne in Hd by done. by right.
Qed.

Lemma fold_left_snoc {A B} (g : list B → A → list B) (f : A → B)
    (l : list A) (acc : list B) :
  (∀ acc x, g acc x = acc ++ [f x]) →
  fold_left g l acc = acc ++ (f <$> l).
Proof.
  intros Hg. revert acc. induction l as [|x l IH]; intros acc; simpl.
  - by rewrite app_nil_r.
  - by rewrite IH, Hg, <- app_assoc.
Qed.

Lemma filter_fmap {A B} (f : A → B) (P : B → Prop) `{!∀ y, Decision (P y)}
    (l : list A) :
  filter P (f <$> l) = f <$> filter (λ x, P (f x)) l.
Proof.
  induction l as [|x l IH]; [done|].
  rewrite fmap_cons, !filter_cons. case_decide; simpl; by rewrite IH.
Qed.

Lemma tag_sentence_fmap pos_tag self sentence :
  Tagger.tag_sentence pos_tag self sentence
  = if Tagger.is_initialized self
    then match pos_tag sentence with
         | Some raw => (λ item, (item.1, Tagger._convert_to_ud_tag item.2)) <$> raw
         | None => []
         end
    else [].
Proof.
  unfold Tagger.tag_sentence. destruct (Tagger.is_initialized self); [|done]. simpl.
  destruct (pos_tag sentence) as [raw|]; [|done].
  apply (fold_left_snoc _ (λ item, (item.1, Tagger._convert_to_ud_tag item.2)) raw []).
  by intros acc [word tag].
Qed.

Lemma legacy_tag_sentence_fmap pos_tag self sentence :
  LegacyTagger.tag_sentence pos_tag self sentence
  = if LegacyTagger.is_initialized self
    then match pos_tag sentence with
         | Some raw => (λ item, (item.1, LegacyTagger._convert_to_ud_tag item.2)) <$> raw
         | None => []
         end
    else [].
Proof.
  unfold LegacyTagger.tag_sentence. destruct (LegacyTagger.is_initialized self); [|done].
  simpl. destruct (pos_tag sentence) as [raw|]; [|done].
  apply (fold_left_snoc _
    (λ item, (item.1, LegacyTagger._convert_to_ud_tag item.2)) raw []).
  by intros acc [word tag].
Qed.



Lemma convert_to_ud_tag_verb tag :
  Tagger._convert_to_ud_tag tag = "VERB" ↔ tag ∈ ["V"; "Vb"].
Proof.
  split.
  - unfold Tagger._convert_to_ud_tag.
    destruct (Tagger.tag_mapping !! tag) as [ud|] eqn:Htag; simpl; [|done].
    intros ->.
    apply dict_literal_lookup_Some, list_elem_of_In in Htag. simpl in Htag.
    repeat (destruct Htag as [Heq|Htag]; [simplify_eq; set_solver|]). done.
  - intros Hin. apply list_elem_of_In in Hin. simpl in Hin.
    by destruct Hin as [<-|[<-|[]]].
Qed.

Lemma legacy_convert_to_ud_tag_verb tag :
  LegacyTagger._convert_to_ud_tag tag = "VERB" ↔ tag ∈ ["V"; "Vb"; "Vu"].
Proof.
  split.
  - unfold LegacyTagger._convert_to_ud_tag.
    destruct (LegacyTagger.tag_mapping !! tag) as [ud|] eqn:Htag; simpl; [|done].
    intros ->.
    apply dict_literal_lookup_Some, list_elem_of_In in Htag. simpl in Htag.
    repeat (destruct Htag as [Heq|Htag]; [simplify_eq; set_solver|]). done.
  - intros Hin. apply list_elem_of_In in Hin. simpl in Hin.
    by destruct Hin as [<-|[<-|[<-|[]]]].
Qed.


Section pipeline.
Context `{StrOps}.

(** X12.  Tagger and converter composed: in the time-aware version the
    verb bucket holds exactly the words that the library tags [V] or
    [Vb], so an auxiliary verb ([Vu], mapped to [AUX]) is never filed as
    a verb; in the first version the verb bucket takes [V], [Vb] and
    [Vu] alike. *)
Theorem pipeline_verb_bucket
    (pos_tag : string → option (list token))
    (tagger : Tagger.tagger) (legacy_tagger : LegacyTagger.tagger)
    (sentence : string) (raw : list token) :
  Tagger.is_initialized tagger = true →
  LegacyTagger.is_initialized legacy_tagger = true →
  pos_tag sentence = Some raw →
  (∃ c, Core._categorize_words (Tagger.tag_sentence pos_tag tagger sentence) = Ok c
        ∧ c !!! "verbs"
          = (λ item, (item.1, "VERB")) <$> filter (λ item, item.2 ∈ ["V"; "Vb"]) raw)
  ∧ (∃ c, Legacy._categorize_words
            (LegacyTagger.tag_sentence pos_tag legacy_tagger sentence) = Ok c
        ∧ c !!! "verbs"
          = (λ item, (item.1, "VERB"))
            <$> filter (λ item, item.2 ∈ ["V"; "Vb"; "Vu"]) raw).
Proof.
  intros Hinit Hinit' Hraw.
  rewrite tag_sentence_fmap, legacy_tag_sentence_fmap, Hinit, Hinit', Hraw. split.
  - set (toks := (λ item : token, (item.1, Tagger._convert_to_ud_tag item.2)) <$> raw).
    destruct (core_categorize_words toks) as (c & Hc & _ & Hget).
    exists c. split; [done|].
    rewrite Hget, (follows_rule_tag _ _ _ _ "VERB" "verbs" (core_follows_rule toks))
      by set_solver.
    unfold toks. rewrite filter_fmap. simpl.
    rewrite (list_filter_iff _ (λ item : token, item.2 ∈ ["V"; "Vb"]))
      by (intros item; apply convert_to_ud_tag_verb).
    apply list_fmap_ext. intros i [word tag] [Hin _]%list_elem_of_lookup_2%list_elem_of_filter.
    simpl in *. f_equal. by apply convert_to_ud_tag_verb.
  - set (toks := (λ item : token, (item.1, LegacyTagger._convert_to_ud_tag item.2)) <$> raw).
    destruct (legacy_categorize_words toks) as (c & Hc & _ & Hget).
    exists c. split; [done|].
    rewrite Hget, (follows_rule_tag _ _ _ _ "VERB" "verbs" (legacy_follows_rule toks))
      by set_solver.
    unfold toks. rewrite filter_fmap. simpl.
    rewrite (list_filter_iff _ (λ item : token, item.2 ∈ ["V"; "Vb"; "Vu"]))
      by (intros item; apply legacy_convert_to_ud_tag_verb).
    apply list_fmap_ext. intros i [word tag] [Hin _]%list_elem_of_lookup_2%list_elem_of_filter.
    simpl in *. f_equal. by apply legacy_convert_to_ud_tag_verb.
Qed.

End pipeline.

(** ** The dictionary report of the first converter *)

Lemma append_Ok_insert {A} (d : gmap string (list A)) k x :
  is_Some (d !! k) → append d k x = Ok (<[k := d !!! k ++ [x]]> d).
Proof. intros Hk. unfold append. by rewrite getitem_Ok. Qed.

Lemma category_of_key word :
  LegacyInfo.category_of word
  ∈ ["pronouns"; "verbs"; "adjectives"; "time_words"; "question_words"; "numbers";
     "nouns"].
Proof. unfold LegacyInfo.category_of. repeat case_decide; set_solver. Qed.

Lemma info_empty_dom :
  dom LegacyInfo.empty_categories
  = {[ "pronouns"; "verbs"; "adjectives"; "nouns"; "time_words"; "question_words";
       "numbers"; "others" ]}.
Proof. by vm_compute. Qed.

Lemma info_empty_lookup k : LegacyInfo.empty_categories !!! k = [].
Proof.
  apply (dict_literal_nil_values
    ["pronouns"; "verbs"; "adjectives"; "nouns"; "time_words"; "question_words";
     "numbers"; "others"]).
Qed.

Lemma info_key_present (c : gmap string (list string)) k :
  dom c = dom LegacyInfo.empty_categories →
  k ∈ ["pronouns"; "verbs"; "adjectives"; "time_words"; "question_words"; "numbers";
       "nouns"] →
  is_Some (c !! k).
Proof.
  intros Hdom Hk. apply elem_of_dom. rewrite Hdom, info_empty_dom. set_solver.
Qed.

Lemma categorize_key_insert (c : gmap string (list string)) word :
  dom c = dom LegacyInfo.empty_categories →
  LegacyInfo.categorize_key c word
  = Ok (<[LegacyInfo.category_of word :=
            c !!! LegacyInfo.category_of word ++ [word]]> c).
Proof.
  intros Hdom. unfold LegacyInfo.categorize_key, LegacyInfo.category_of.
  repeat (case_decide;
          [apply append_Ok_insert, (info_key_present _ _ Hdom); set_solver|]).
  apply append_Ok_insert, (info_key_present _ _ Hdom); set_solver.
Qed.

Lemma categorize_keys_filter keys (c : gmap string (list string)) :
  dom c = dom LegacyInfo.empty_categories →
  ∃ c', for_each LegacyInfo.categorize_key keys c = Ok c'
        ∧ dom c' = dom LegacyInfo.empty_categories
        ∧ ∀ k, c' !!! k = c !!! k ++ filter (λ w, LegacyInfo.category_of w = k) keys.
Proof.
  revert c. induction keys as [|word keys IH]; intros c Hdom.
  - exists c. split_and!; [done..|]. intros k. by rewrite app_nil_r.
  - simpl. rewrite (categorize_key_insert c word Hdom), bind_Ok.
    destruct (IH (<[LegacyInfo.category_of word :=
                      c !!! LegacyInfo.category_of word ++ [word]]> c))
      as (c' & Hrun & Hdom' & Hget).
    { rewrite dom_insert_L, Hdom.
      apply (subseteq_union_1_L (C := gset string)), singleton_subseteq_l.
      rewrite <- Hdom. apply elem_of_dom, (info_key_present _ _ Hdom), category_of_key. }
    exists c'. split_and!; [done..|]. intros k. rewrite Hget, filter_cons.
    destruct (decide (LegacyInfo.category_of word = k)) as [<-|Hne].
    + by rewrite lookup_total_insert_eq, <- app_assoc.
    + by rewrite lookup_total_insert_ne.
Qed.

Lemma category_counts_sum keys :
  length (filter (λ w, LegacyInfo.category_of w = "pronouns") keys)
  + length (filter (λ w, LegacyInfo.category_of w = "verbs") keys)
  + length (filter (λ w, LegacyInfo.category_of w = "adjectives") keys)
  + length (filter (λ w, LegacyInfo.category_of w = "nouns") keys)
  + length (filter (λ w, LegacyInfo.category_of w = "time_words") keys)
  + length (filter (λ w, LegacyInfo.category_of w = "question_words") keys)
  + length (filter (λ w, LegacyInfo.category_of w = "numbers") keys)
  = length keys.
Proof.
  induction keys as [|word keys IH]; [done|].
  rewrite !filter_cons. pose proof (category_of_key word) as Hin.
  remember (LegacyInfo.category_of word) as k eqn:Hk. clear Hk.
  apply list_elem_of_In in Hin. simpl in Hin.
  destruct Hin as [<-|[<-|[<-|[<-|[<-|[<-|[<-|[]]]]]]]];
    repeat case_decide; try done; simpl; lia.
Qed.

(** X13.  The dictionary report of the first converter never raises and
    files every key of the dictionary under exactly one of seven
    categories, the first of the word lists that holds it, or nouns when
    none does: each count is the number of keys of that category, the
    counts add up to the number of keys, which is [total_entries], and
    each sample holds the first five keys of its category in dictionary
    order. *)
Theorem dictionary_report_files_every_key_once
    (self : Legacy.converter) (keys : list string) :
  let count := λ k, length (filter (λ w, LegacyInfo.category_of w = k) keys) in
  let sample := λ k, take 5 (filter (λ w, LegacyInfo.category_of w = k) keys) in
  ∃ info,
    LegacyInfo.get_sign_dictionary_info self keys = Ok info
    ∧ LegacyInfo.categories info
      = dict_literal [
          ("pronouns", count "pronouns"); ("verbs", count "verbs");
          ("adjectives", count "adjectives"); ("nouns", count "nouns");
          ("time_words", count "time_words");
          ("question_words", count "question_words");
          ("numbers", count "numbers") ]
    ∧ LegacyInfo.sample_words info
      = dict_literal [
          ("pronouns", sample "pronouns"); ("verbs", sample "verbs");
          ("adjectives", sample "adjectives"); ("nouns", sample "nouns") ]
    ∧ count "pronouns" + count "verbs" + count "adjectives" + count "nouns"
      + count "time_words" + count "question_words" + count "numbers"
      = length keys
    ∧ count "nouns"
      = length (filter
          (λ w, w ∉ LegacyInfo.pronouns ++ LegacyInfo.verbs ++ LegacyInfo.adjectives
                    ++ LegacyInfo.time_words ++ LegacyInfo.question_words
                    ++ LegacyInfo.numbers) keys)
    ∧ (keys ≡ₚ (map_to_list (Legacy.sign_dictionary self)).*1 →
       LegacyInfo.total_entries info = length keys).
Proof.
  intros count sample.
  destruct (categorize_keys_filter keys LegacyInfo.empty_categories eq_refl)
    as (c & Hrun & Hdom & Hget).
  assert (Hc : ∀ k, c !!! k = filter (λ w, LegacyInfo.category_of w = k) keys).
  { intros k. by rewrite Hget, info_empty_lookup. }
  eexists. split.
  { unfold LegacyInfo.get_sign_dictionary_info. rewrite Hrun, bind_Ok.
    rewrite (getitem_Ok c "pronouns"), (getitem_Ok c "verbs"),
      (getitem_Ok c "adjectives"), (getitem_Ok c "nouns"),
      (getitem_Ok c "time_words"), (getitem_Ok c "question_words"),
      (getitem_Ok c "numbers")
      by (apply (info_key_present _ _ Hdom); set_solver).
    reflexivity. }
  cbn [LegacyInfo.categories LegacyInfo.sample_words LegacyInfo.total_entries].
  rewrite !Hc.
  split_and!; [done|done|apply category_counts_sum| |].
  - unfold count. f_equal. apply list_filter_iff. intros w.
    unfold LegacyInfo.category_of. rewrite !not_elem_of_app.
    repeat case_decide; naive_solver.
  - intros Hperm. rewrite Hperm, length_fmap.
    by rewrite length_map_to_list.
Qed.

(** ** The conversion endpoint *)

Section endpoint.
Context `{StrOps}.
Context {time : Type} (round2 : time → time).

(** X14.  The conversion endpoint answers in exactly five ways, tested
    in this order: status 422, without running the handler, when the
    text of the body is empty; status 400 when the text is not empty but
    is empty once stripped; status 500 naming the tagger when the tagger
    is not initialized; status 500 naming the converter when the
    converter is not initialized; and otherwise status 200 with a
    response that has [success] set and no error.  The branch that
    reports a conversion error is never taken. *)
Theorem endpoint_answers
    (pos_tag : string → option (list token))
    (tagger : Tagger.tagger) (converter : Core.converter)
    (processing_time : time) (text : string) :
  let answer :=
    Api.post_convert_sign_language round2 pos_tag tagger converter processing_time text in
  (text = "" → answer = Api.RequestValidationError ∧ Api.status answer = 422)
  ∧ (text ≠ "" → strip text = "" →
       answer = Api.Handled (Api.HTTPException 400 "Please provide text input!"))
  ∧ (text ≠ "" → strip text ≠ "" → Tagger.is_initialized tagger = false →
       answer = Api.Handled (Api.HTTPException 500 "Error loading POS Tagger!"))
  ∧ (text ≠ "" → strip text ≠ "" → Tagger.is_initialized tagger = true →
       Core.is_initialized converter = false →
       answer
       = Api.Handled (Api.HTTPException 500 "Error loading Sign Language Converter!"))
  ∧ (text ≠ "" → strip text ≠ "" → Tagger.is_initialized tagger = true →
       Core.is_initialized converter = true →
       ∃ response, answer = Api.Handled (Api.Returned response)
                   ∧ Api.status answer = 200
                   ∧ Api.success response = true
                   ∧ Api.error response = None)
  ∧ (∀ detail,
       answer ≠ Api.Handled (Api.HTTPException 500 ("Conversion error: " +:+ detail))).
Proof.
  intros answer. unfold answer, Api.post_convert_sign_language, Api.TextRequest_new.
  destruct text as [|a text].
  { simpl. split_and!; try done. }
  rewrite decide_False by (simpl; lia). cbn [Api.text].
  unfold Api.convert_to_sign_language, Api.validate_text_input.
  destruct (decide (strip (String a text) = "")) as [Hempty|Hne].
  { rewrite bool_decide_eq_true_2 by done. simpl. split_and!; try done. }
  rewrite bool_decide_eq_false_2 by done.
  unfold Api.check_component_initialization.
  destruct (Tagger.is_initialized tagger) eqn:Htagger; simpl.
  2: { split_and!; try done. }
  destruct (Core.is_initialized converter) eqn:Hconverter; simpl.
  2: { split_and!; try done. }
  destruct (core_convert converter
              (Tagger.tag_sentence pos_tag tagger (strip (String a text))) Hconverter)
    as (c & details & d & _ & _ & _ & Hconv).
  rewrite Hconv. split_and!; try done.
  intros _ _ _ _. by eexists.
Qed.

(** X15.  When the endpoint succeeds, its response holds the tagged
    words as [pos_analysis], their surface words joined by spaces as the
    sentence, a gloss sequence that is a rearrangement of those surface
    words, and one detail entry per tagged word.  A tagging that fails
    or finds nothing therefore gives a successful response with an empty
    sentence and an empty sequence, not an error. *)
Theorem endpoint_success_content
    (pos_tag : string → option (list token))
    (tagger : Tagger.tagger) (converter : Core.converter)
    (processing_time : time) (text : string) :
  strip text ≠ "" →
  Tagger.is_initialized tagger = true →
  Core.is_initialized converter = true →
  let tagged := Tagger.tag_sentence pos_tag tagger (strip text) in
  ∃ response sequence details analysis,
    Api.convert_to_sign_language round2 pos_tag tagger converter processing_time text
    = Api.Returned response
    ∧ Api.pos_analysis response = Some tagged
    ∧ Api.original_sentence response = Some (join " " (tagged.*1))
    ∧ Api.sign_language_sequence response = Some sequence
    ∧ sequence ≡ₚ tagged.*1
    ∧ Api.word_details response = Some details
    ∧ length details = length tagged
    ∧ Api.structure_analysis response = Some (analysis, round2 processing_time)
    ∧ Core.word_count analysis = length tagged
    ∧ (pos_tag (strip text) = None ∨ pos_tag (strip text) = Some [] →
       tagged = [] ∧ sequence = []
       ∧ Api.original_sentence response = Some "").
Proof.
  intros Hne Htagger Hconverter tagged.
  destruct (core_convert converter tagged Hconverter)
    as (c & details & a & Hc & Hd & Ha & Hconv).
  destruct (core_categorize_words tagged) as (c' & Hc' & Hdom & _).
  assert (c' = c) by congruence. subst c'.
  destruct (core_word_details converter tagged) as (details' & Hd' & Hlen & _).
  assert (details' = details) by congruence. subst details'.
  destruct (core_create_analysis tagged c
              (concat (map (λ k, c !!! k) Core.bucket_order)).*1 Hdom)
    as (a' & Ha' & Hwc & _).
  assert (a' = a) by congruence. subst a'.
  pose proof (core_buckets_permutation tagged c Hc) as Hperm.
  assert (Hempty : pos_tag (strip text) = None ∨ pos_tag (strip text) = Some [] →
                   tagged = []).
  { unfold tagged. rewrite tag_sentence_fmap, Htagger. by intros [->| ->]. }
  eexists _, (concat (map (λ k, c !!! k) Core.bucket_order)).*1, details, a.
  split.
  { unfold Api.convert_to_sign_language, Api.validate_text_input.
    rewrite bool_decide_eq_false_2 by done.
    unfold Api.check_component_initialization. rewrite Htagger, Hconverter. simpl.
    fold tagged. rewrite Hconv. reflexivity. }
  cbn [Api.pos_analysis Api.original_sentence Api.sign_language_sequence
       Api.word_details Api.structure_analysis
       Core.original_sentence Core.sign_language_sequence Core.word_details
       Core.structure_analysis].
  split_and!; try done.
  - by rewrite Hperm.
  - intros Hnone. specialize (Hempty Hnone).
    assert (Hnil : concat (map (λ k, c !!! k) Core.bucket_order) = []).
    { apply Permutation_nil_r. by rewrite Hperm, Hempty. }
    by rewrite Hnil, Hempty.
Qed.

End endpoint.

(** ** The two converters side by side *)

Lemma follows_rule_relabel (time : token → bool) b0 toks labels labels' :
  follows_rule time b0 toks labels →
  follows_rule (λ _, false) b0 toks labels' →
  labels' = (λ k, if decide (k = "time_expressions") then "others" else k) <$> labels.
Proof.
  intros [Hlen Hrule] [Hlen' Hrule'].
  apply list_eq. intros i. rewrite list_lookup_fmap.
  destruct (toks !! i) as [[word pos]|] eqn:Hi.
  - rewrite (Hrule i word pos Hi), (Hrule' i word pos Hi). simpl. f_equal.
    unfold bucket_rule.
    destruct (time (word, pos)), (b0 || existsb noun_or_verb (take i toks));
      repeat case_decide; done.
  - apply lookup_ge_None in Hi.
    rewrite (proj2 (lookup_ge_None labels' i)) by lia.
    by rewrite (proj2 (lookup_ge_None labels i)) by lia.
Qed.

Section side_by_side.
Context `{StrOps}.

(** X16.  The time-aware converter differs from the first one in the
    order of the words only by the time expressions: both emit the same
    front part (pronouns, subject, adjectives, numbers, objects, verbs,
    adverbs, prepositions); the first converter then emits all tokens
    with an unhandled tag, while the time-aware one moves those among
    them that are time expressions to the very front.  When no token
    with an unhandled tag is a time expression, the sequence of the
    first converter is the gloss of each word of the other sequence. *)
Theorem time_words_move_from_the_end_to_the_front
    (core : Core.converter) (legacy : Legacy.converter) (toks : list token) :
  Core.is_initialized core = true →
  Legacy.is_initialized legacy = true →
  let gloss := λ word,
    default (upper word) (Legacy.sign_dictionary legacy !! normalized word) in
  let is_time := λ tok : token, Core._is_time_expression (lower tok.1) in
  ∃ r r' front others,
    Core.convert_to_sign_language core toks = Ok (Core.Converted r)
    ∧ Legacy.convert_to_sign_language legacy toks = Ok (Legacy.Converted r')
    ∧ others
      = filter (λ tok,
          tok.2 ∉ ["PRON"; "NOUN"; "PROPN"; "VERB"; "ADJ"; "ADV"; "NUM"; "ADP"]) toks
    ∧ Core.sign_language_sequence r
      = (filter (λ tok, is_time tok = true) others ++ front
         ++ filter (λ tok, is_time tok = false) others).*1
    ∧ Legacy.sign_language_sequence r' = gloss <$> (front ++ others).*1
    ∧ (Forall (λ tok, is_time tok = false) others →
       Legacy.sign_language_sequence r' = gloss <$> Core.sign_language_sequence r).
Proof.
  intros Hcore Hlegacy gloss is_time.
  destruct (core_convert core toks Hcore) as (c & details & a & Hc & _ & _ & Hconv).
  destruct (legacy_convert legacy toks Hlegacy) as (l & a' & Hl & Hconv').
  destruct (core_categorize_words toks) as (c0 & Hc0 & _ & Hget).
  assert (c0 = c) by congruence. subst c0.
  destruct (legacy_categorize_words toks) as (l0 & Hl0 & _ & Hget').
  assert (l0 = l) by congruence. subst l0.
  pose proof (follows_rule_relabel _ _ _ _ _ (core_follows_rule toks)
                (legacy_follows_rule toks)) as Hlabels.
  assert (Hsame : ∀ k, k ≠ "others" → k ≠ "time_expressions" → l !!! k = c !!! k).
  { intros k Ho Ht. rewrite Hget, Hget', Hlabels. by apply members_relabel. }
  set (handled := ["PRON"; "NOUN"; "PROPN"; "VERB"; "ADJ"; "ADV"; "NUM"; "ADP"]).
  assert (Hothers' : l !!! "others" = filter (λ tok : token, tok.2 ∉ handled) toks).
  { rewrite Hget', (follows_rule_others _ _ _ _ (legacy_follows_rule toks)).
    apply list_filter_iff. intros tok. naive_solver. }
  assert (Htime : c !!! "time_expressions"
            = filter (λ tok, is_time tok = true)
                (filter (λ tok : token, tok.2 ∉ handled) toks)).
  { rewrite Hget, (follows_rule_time _ _ _ _ (core_follows_rule toks)), list_filter_filter.
    apply list_filter_iff. intros tok. unfold is_time. naive_solver. }
  assert (Hothers : c !!! "others"
            = filter (λ tok, is_time tok = false)
                (filter (λ tok : token, tok.2 ∉ handled) toks)).
  { rewrite Hget, (follows_rule_others _ _ _ _ (core_follows_rule toks)), list_filter_filter.
    apply list_filter_iff. intros tok. unfold is_time. naive_solver. }
  eexists _, _,
    (concat (map (λ k, c !!! k)
       ["pronouns"; "subjects"; "adjectives"; "numbers"; "objects"; "verbs";
        "adverbs"; "prepositions"])),
    (filter (λ tok : token, tok.2 ∉ handled) toks).
  split; [exact Hconv|]. split; [exact Hconv'|]. split; [done|].
  cbn [Core.sign_language_sequence Legacy.sign_language_sequence].
  assert (Hcore_seq : concat (map (λ k, c !!! k) Core.bucket_order)
    = filter (λ tok, is_time tok = true) (filter (λ tok : token, tok.2 ∉ handled) toks)
      ++ concat (map (λ k, c !!! k)
           ["pronouns"; "subjects"; "adjectives"; "numbers"; "objects"; "verbs";
            "adverbs"; "prepositions"])
      ++ filter (λ tok, is_time tok = false)
           (filter (λ tok : token, tok.2 ∉ handled) toks)).
  { rewrite <- Htime, <- Hothers. unfold Core.bucket_order. simpl.
    by rewrite !app_nil_r, <- !app_assoc. }
  assert (Hlegacy_seq : concat (map (λ k, l !!! k) Legacy.bucket_order)
    = concat (map (λ k, c !!! k)
           ["pronouns"; "subjects"; "adjectives"; "numbers"; "objects"; "verbs";
            "adverbs"; "prepositions"])
      ++ filter (λ tok : token, tok.2 ∉ handled) toks).
  { rewrite <- Hothers'. unfold Legacy.bucket_order. simpl.
    rewrite !Hsame by done. by rewrite !app_nil_r, <- !app_assoc. }
  split; [by rewrite Hcore_seq|].
  assert (Hgloss : ∀ ts : list token,
    (λ tok : token, default (upper tok.1)
                      (Legacy.sign_dictionary legacy !! normalized tok.1)) <$> ts
    = gloss <$> ts.*1).
  { intros ts. by rewrite <- list_fmap_compose. }
  split; [by rewrite Hgloss, Hlegacy_seq|].
  intros Hnone. rewrite Hgloss, Hlegacy_seq, Hcore_seq. do 2 f_equal.
  assert (Hall : filter (λ tok, is_time tok = false)
                   (filter (λ tok : token, tok.2 ∉ handled) toks)
                 = filter (λ tok : token, tok.2 ∉ handled) toks).
  { revert Hnone. generalize (filter (λ tok : token, tok.2 ∉ handled) toks).
    intros ts Hts. induction Hts as [|tok ts Htok _ IH]; [done|].
    by rewrite filter_cons, decide_True, IH by done. }
  assert (Hnil : filter (λ tok, is_time tok = true)
                   (filter (λ tok : token, tok.2 ∉ handled) toks) = []).
  { revert Hnone. generalize (filter (λ tok : token, tok.2 ∉ handled) toks).
    intros ts Hts. induction Hts as [|tok ts Htok _ IH]; [done|].
    rewrite filter_cons, decide_False, IH; [done|]. by rewrite Htok. }
  by rewrite Hall, Hnil.
Qed.

(** X17.  A conversion after a reload depends on the reloaded file only,
    not on what the store held before: two initialized converters give
    the same result once both have reloaded the same file, the result of
    a freshly started converter.  After a reload from a missing file
    every sign is the uppercased word, and the classification of the
    tokens is the same before and after any reload. *)
Theorem conversion_after_reload_depends_on_the_file_only
    (self other : Legacy.converter) (file : dict_file) (toks : list token) :
  Legacy.is_initialized self = true →
  Legacy.is_initialized other = true →
  Legacy.convert_to_sign_language (Legacy.reload_dictionary self file) toks
  = Legacy.convert_to_sign_language (Legacy.reload_dictionary other file) toks
  ∧ Legacy.convert_to_sign_language (Legacy.reload_dictionary self file) toks
    = Legacy.convert_to_sign_language (Legacy.init file) toks
  ∧ ∃ before after missing,
      Legacy.convert_to_sign_language self toks = Ok (Legacy.Converted before)
      ∧ Legacy.convert_to_sign_language (Legacy.reload_dictionary self file) toks
        = Ok (Legacy.Converted after)
      ∧ Legacy.convert_to_sign_language (Legacy.reload_dictionary self NotFound) toks
        = Ok (Legacy.Converted missing)
      ∧ Legacy.pos_analysis after = Legacy.pos_analysis before
      ∧ Legacy.original_sentence after = Legacy.original_sentence before
      ∧ length (Legacy.sign_language_sequence after)
        = length (Legacy.sign_language_sequence before)
      ∧ ∃ reordered,
          (Legacy._categorize_words toks ≫= Legacy._reorder_for_sign_language)
          = Ok reordered
          ∧ Legacy.sign_language_sequence missing = (λ tok, upper tok.1) <$> reordered.
Proof.
  intros Hself Hother.
  assert (Hfresh : ∀ s, Legacy.is_initialized s = true →
            Legacy.reload_dictionary s file = Legacy.init file).
  { intros s Hs. unfold Legacy.reload_dictionary, Legacy.init. by rewrite Hs. }
  split; [by rewrite (Hfresh self), (Hfresh other)|].
  split; [by rewrite (Hfresh self)|].
  destruct (legacy_convert self toks Hself) as (c & a & Hc & Hconv).
  destruct (legacy_convert (Legacy.reload_dictionary self file) toks Hself)
    as (c1 & a1 & Hc1 & Hconv1).
  destruct (legacy_convert (Legacy.reload_dictionary self NotFound) toks Hself)
    as (c2 & a2 & Hc2 & Hconv2).
  assert (c1 = c) by congruence. assert (c2 = c) by congruence. subst c1 c2.
  destruct (legacy_categorize_words toks) as (c0 & Hc0 & Hdom & _).
  assert (c0 = c) by congruence. subst c0.
  eexists _, _, _.
  split; [exact Hconv|]. split; [exact Hconv1|]. split; [exact Hconv2|].
  cbn [Legacy.pos_analysis Legacy.original_sentence Legacy.sign_language_sequence].
  split_and!; [done|done|by rewrite !length_fmap|].
  exists (concat (map (λ k, c !!! k) Legacy.bucket_order)). split.
  - by rewrite Hc, bind_Ok, (legacy_reorder c Hdom).
  - apply list_fmap_ext. intros i tok _. simpl. by rewrite lookup_empty.
Qed.

End side_by_side.

(** ** The properties above on concrete sentences *)

Lemma reported_counts_leave_out_four_buckets_witness :
  let core := @Core.init ascii_ops NotFound in
  let legacy := @Legacy.init ascii_ops NotFound in
  let toks := [("Toi", "PRON"); ("an", "VERB"); ("com", "NOUN"); ("roi", "ADV")] in
  Core.is_initialized core = true
  ∧ Legacy.is_initialized legacy = true
  ∧ (∃ r, @Core.convert_to_sign_language ascii_ops core toks = Ok (Core.Converted r)
          ∧ Core.word_count (Core.structure_analysis r) = 4
          ∧ Core.subjects (Core.structure_changes (Core.structure_analysis r))
            + Core.verbs (Core.structure_changes (Core.structure_analysis r))
            + Core.objects (Core.structure_changes (Core.structure_analysis r))
            + Core.adjectives (Core.structure_changes (Core.structure_analysis r))
            + Core.time_expressions (Core.structure_changes (Core.structure_analysis r))
            + Core.others (Core.structure_changes (Core.structure_analysis r))
            = 2)
  ∧ (∃ r, @Legacy.convert_to_sign_language ascii_ops legacy toks
          = Ok (Legacy.Converted r)
          ∧ Legacy.word_count (Legacy.structure_analysis r) = 4
          ∧ Legacy.subjects (Legacy.structure_changes (Legacy.structure_analysis r))
            + Legacy.verbs (Legacy.structure_changes (Legacy.structure_analysis r))
            + Legacy.objects (Legacy.structure_changes (Legacy.structure_analysis r))
            + Legacy.adjectives (Legacy.structure_changes (Legacy.structure_analysis r))
            + Legacy.others (Legacy.structure_changes (Legacy.structure_analysis r))
            = 2).
Proof.
  intros core legacy toks.
  split; [reflexivity|]. split; [reflexivity|].
  destruct (@reported_counts_leave_out_four_buckets ascii_ops core legacy toks
              eq_refl eq_refl)
    as [(r & Hr & Hwc & _ & Hsum & _) (r' & Hr' & Hwc' & _ & Hsum' & _)].
  split.
  - exists r. split; [exact Hr|]. split; [exact Hwc | exact Hsum].
  - exists r'. split; [exact Hr'|]. split; [exact Hwc' | exact Hsum'].
Defined.

Lemma vocabulary_mapped_bounds_witness :
  let legacy := @Legacy.init ascii_ops (Text ["toi = TOI"]) in
  let toks := [("toi", "PRON"); ("an", "VERB"); ("123", "NUM")] in
  Legacy.is_initialized legacy = true
  ∧ ∃ r, @Legacy.convert_to_sign_language ascii_ops legacy toks = Ok (Legacy.Converted r)
         ∧ (1 ≤ Legacy.vocabulary_mapped (Legacy.structure_analysis r))%nat
         ∧ (Legacy.vocabulary_mapped (Legacy.structure_analysis r)
            ≤ Legacy.sign_count (Legacy.structure_analysis r))%nat.
Proof.
  intros legacy toks. split; [reflexivity|].
  destruct (@vocabulary_mapped_bounds ascii_ops legacy toks eq_refl)
    as (r & Hr & Hlow & Hhigh & _).
  exists r. split; [exact Hr|]. split; [exact Hlow | exact Hhigh].
Defined.

Lemma last_line_for_a_key_wins_witness :
  (∀ l, l ∈ ["b = Z"] → @Core.load_line ascii_ops ∅ l !! "a" = None)
  ∧ (∀ l, l ∈ ["b = Z"] → @Legacy.load_line ascii_ops ∅ l !! "a" = None)
  ∧ @Core.load_line ascii_ops ∅ "a = Y" !! "a" = Some "Y"
  ∧ @Legacy.load_line ascii_ops ∅ "a = Y" !! "a" = Some "Y"
  ∧ @Core._load_dictionary_from_file ascii_ops (Text ["a = X"; "a = Y"; "b = Z"]) !! "a"
    = Some "Y"
  ∧ @Legacy._load_dictionary_from_file ascii_ops (Text ["a = X"; "a = Y"; "b = Z"]) !! "a"
    = Some "Y".
Proof.
  assert (Hcore : ∀ l, l ∈ ["b = Z"] → @Core.load_line ascii_ops ∅ l !! "a" = None).
  { intros l Hl. apply list_elem_of_singleton in Hl. subst l. reflexivity. }
  assert (Hlegacy : ∀ l, l ∈ ["b = Z"] → @Legacy.load_line ascii_ops ∅ l !! "a" = None).
  { intros l Hl. apply list_elem_of_singleton in Hl. subst l. reflexivity. }
  split; [exact Hcore|]. split; [exact Hlegacy|].
  split; [reflexivity|]. split; [reflexivity|].
  destruct (@last_line_for_a_key_wins ascii_ops ["a = X"] ["b = Z"] "a = Y" "a" "Y"
              Hcore Hlegacy) as [Hc Hl].
  split; [exact (Hc eq_refl) | exact (Hl eq_refl)].
Defined.

Lemma pipeline_verb_bucket_witness :
  let pos_tag := λ _ : string, Some [("toi", "P"); ("da", "Vu"); ("an", "V")] in
  let tagger := {| Tagger.is_initialized := true |} in
  let legacy_tagger := {| LegacyTagger.is_initialized := true |} in
  Tagger.is_initialized tagger = true
  ∧ LegacyTagger.is_initialized legacy_tagger = true
  ∧ pos_tag "toi da an" = Some [("toi", "P"); ("da", "Vu"); ("an", "V")]
  ∧ (∃ c, @Core._categorize_words ascii_ops
            (Tagger.tag_sentence pos_tag tagger "toi da an") = Ok c
          ∧ c !!! "verbs" = [("an", "VERB")])
  ∧ (∃ c, Legacy._categorize_words
            (LegacyTagger.tag_sentence pos_tag legacy_tagger "toi da an") = Ok c
          ∧ c !!! "verbs" = [("da", "VERB"); ("an", "VERB")]).
Proof.
  intros pos_tag tagger legacy_tagger.
  split; [reflexivity|]. split; [reflexivity|]. split; [reflexivity|].
  destruct (@pipeline_verb_bucket ascii_ops pos_tag tagger legacy_tagger "toi da an"
              [("toi", "P"); ("da", "Vu"); ("an", "V")] eq_refl eq_refl eq_refl)
    as [(c & Hc & Hv) (c' & Hc' & Hv')].
  split.
  - exists c. split; [exact Hc | exact Hv].
  - exists c'. split; [exact Hc' | exact Hv'].
Defined.

Lemma endpoint_success_content_witness :
  let pos_tag := λ _ : string, Some [("toi", "P"); ("an", "V"); ("com", "N")] in
  let tagger := {| Tagger.is_initialized := true |} in
  let converter := @Core.init ascii_ops NotFound in
  @strip ascii_ops " toi an com " ≠ ""
  ∧ Tagger.is_initialized tagger = true
  ∧ Core.is_initialized converter = true
  ∧ ∃ response sequence,
      @Api.convert_to_sign_language ascii_ops nat id pos_tag tagger converter 7
        " toi an com " = Api.Returned response
      ∧ Api.pos_analysis response = Some [("toi", "PRON"); ("an", "VERB"); ("com", "NOUN")]
      ∧ Api.original_sentence response = Some "toi an com"
      ∧ Api.sign_language_sequence response = Some sequence
      ∧ sequence ≡ₚ ["toi"; "an"; "com"].
Proof.
  intros pos_tag tagger converter.
  assert (Hne : @strip ascii_ops " toi an com " ≠ "") by (vm_compute; discriminate).
  split; [exact Hne|]. split; [reflexivity|]. split; [reflexivity|].
  destruct (@endpoint_success_content ascii_ops nat id pos_tag tagger converter 7
              " toi an com " Hne eq_refl eq_refl)
    as (response & sequence & details & analysis & Hr & Hpos & Horig & Hseq & Hperm & _).
  exists response, sequence.
  split; [exact Hr|]. split; [exact Hpos|]. split; [exact Horig|].
  split; [exact Hseq | exact Hperm].
Defined.

Lemma time_words_move_from_the_end_to_the_front_witness :
  let core := @Core.init ascii_ops NotFound in
  let legacy := @Legacy.init ascii_ops (Text ["toi = TOI"]) in
  let toks := [("toi", "PRON"); ("an", "VERB"); ("sáng", "X"); ("nhe", "PART")] in
  Core.is_initialized core = true
  ∧ Legacy.is_initialized legacy = true
  ∧ ∃ r r',
      @Core.convert_to_sign_language ascii_ops core toks = Ok (Core.Converted r)
      ∧ @Legacy.convert_to_sign_language ascii_ops legacy toks = Ok (Legacy.Converted r')
      ∧ ∃ front,
          Core.sign_language_sequence r = ["sáng"] ++ front ++ ["nhe"]
          ∧ Legacy.sign_language_sequence r'
            = (λ word, default (@upper ascii_ops word)
                         (Legacy.sign_dictionary legacy !! @normalized ascii_ops word))
              <$> (front ++ ["sáng"; "nhe"]).
Proof.
  intros core legacy toks.
  split; [reflexivity|]. split; [reflexivity|].
  destruct (@time_words_move_from_the_end_to_the_front ascii_ops core legacy toks
              eq_refl eq_refl)
    as (r & r' & front & others & Hr & Hr' & Hothers & Hseq & Hseq' & _).
  exists r, r'. split; [exact Hr|]. split; [exact Hr'|].
  exists (front.*1). rewrite Hseq, Hseq', Hothers.
  split; [by rewrite !fmap_app|by rewrite fmap_app].
Defined.

Lemma conversion_after_reload_depends_on_the_file_only_witness :
  let self := @Legacy.init ascii_ops (Text ["toi = TOI"]) in
  let other := @Legacy.init ascii_ops NotFound in
  let file := Text ["an = EAT"] in
  let toks := [("toi", "PRON"); ("an", "VERB")] in
  Legacy.is_initialized self = true
  ∧ Legacy.is_initialized other = true
  ∧ @Legacy.convert_to_sign_language ascii_ops
      (@Legacy.reload_dictionary ascii_ops self file) toks
    = @Legacy.convert_to_sign_language ascii_ops
        (@Legacy.reload_dictionary ascii_ops other file) toks.
Proof.
  intros self other file toks.
  split; [reflexivity|]. split; [reflexivity|].
  exact (proj1 (@conversion_after_reload_depends_on_the_file_only ascii_ops
                  self other file toks eq_refl eq_refl)).
Defined.

Lemma endpoint_answers_witness :
  let pos_tag := λ _ : string, Some [("toi", "P"); ("an", "V")] in
  let tagger := {| Tagger.is_initialized := true |} in
  let converter := @Core.init ascii_ops NotFound in
  @Api.post_convert_sign_language ascii_ops nat id pos_tag tagger converter 7 ""
  = Api.RequestValidationError
  ∧ @Api.post_convert_sign_language ascii_ops nat id pos_tag tagger converter 7 "  "
    = Api.Handled (Api.HTTPException 400 "Please provide text input!")
  ∧ ∃ response,
      @Api.post_convert_sign_language ascii_ops nat id pos_tag tagger converter 7 "toi an"
      = Api.Handled (Api.Returned response)
      ∧ Api.success response = true.
Proof.
  intros pos_tag tagger converter.
  split; [|split].
  - exact (proj1 (proj1 (@endpoint_answers ascii_ops nat id pos_tag tagger converter 7 "")
                    eq_refl)).
  - refine (proj1 (proj2 (@endpoint_answers ascii_ops nat id pos_tag tagger converter 7
                            "  ")) _ eq_refl).
    discriminate.
  - destruct (proj1 (proj2 (proj2 (proj2 (proj2
                (@endpoint_answers ascii_ops nat id pos_tag tagger converter 7 "toi an")))))
                ltac:(discriminate) ltac:(vm_compute; discriminate) eq_refl eq_refl)
      as (response & Hr & _ & Hs & _).
    exists response. split; [exact Hr | exact Hs].
Defined.
